(** * Nuance: the LLM service and the topic tagger

    A shallow embedding of [nuance/processing/llm.py] and
    [nuance/processing/topic_tagger.py], and the properties of the
    response sanitizer, of the verdict classification and of the
    per-post orchestration. *)

From Stdlib Require Import PrimFloat List NArith String Ascii Lia Arith Bool.
From stdpp Require Import gmap strings list functions.
From Equations Require Import Equations.
From Equations.Prop Require Import Logic.
Import ListNotations.

Set Default Proof Using "Type".
Set Warnings "-register-all".
Local Open Scope list_scope.

(** ** Python strings

    A Python [str] is a sequence of Unicode code points.  The literals
    written out below are all ASCII, so they are given as Rocq strings and
    read byte by byte. *)

Abbreviation str := (list N).

Definition lit (s : string) : str :=
  List.map N_of_ascii (list_ascii_of_string s).

(** [str.isspace] for one code point, the table [str.strip] uses when it
    is called without an argument. *)
Definition isspace (c : N) : bool :=
  ((9 <=? c) && (c <=? 13)            (* \t \n \v \f \r *)
   || (28 <=? c) && (c <=? 32)        (* FS GS RS US and the space *)
   || (c =? 133) || (c =? 160)        (* NEL, no-break space *)
   || (c =? 5760)                     (* U+1680 *)
   || (8192 <=? c) && (c <=? 8202)    (* U+2000 .. U+200A *)
   || (c =? 8232) || (c =? 8233)      (* U+2028, U+2029 *)
   || (c =? 8239) || (c =? 8287)      (* U+202F, U+205F *)
   || (c =? 12288))%N.                (* U+3000 *)

Fixpoint lstrip (s : str) : str :=
  match s with
  | [] => []
  | c :: s' => if isspace c then lstrip s' else s
  end.

Definition rstrip (s : str) : str := rev (lstrip (rev s)).

(** [s.strip()] *)
Definition strip (s : str) : str := rstrip (lstrip s).

Fixpoint str_eqb (a b : str) : bool :=
  match a, b with
  | [], [] => true
  | x :: a', y :: b' => (x =? y)%N && str_eqb a' b'
  | _, _ => false
  end.

(** ** The response sanitizer: [strip_thinking]

    [re.sub(r"<think>.*?</think>", "", text, flags=re.DOTALL).strip()] *)

Definition open_marker : str := Eval cbv in lit "<think>".
Definition close_marker : str := Eval cbv in lit "</think>".
Arguments open_marker : simpl never.
Arguments close_marker : simpl never.

(** [starts_with p s]: [s.startswith(p)]. *)
Fixpoint starts_with (p s : str) : bool :=
  match p, s with
  | [], _ => true
  | x :: p', y :: s' => (x =? y)%N && starts_with p' s'
  | _ :: _, [] => false
  end.

(** [find_after p s]: what follows the first occurrence of [p] in [s],
    if there is one. *)
Fixpoint find_after (p s : str) : option str :=
  if starts_with p s then Some (drop (length p) s)
  else match s with
       | [] => None
       | _ :: s' => find_after p s'
       end.

(** One attempt of the pattern [<think>.*?</think>] at the start of [s]:
    the open marker, then as few characters as possible (any character,
    the flag DOTALL makes [.] match a newline too), then the close marker.
    The result is the text after the match. *)
Definition match_think (s : str) : option str :=
  if starts_with open_marker s
  then find_after close_marker (drop (length open_marker) s)
  else None.

(** [re.sub(pattern, "", s)]: scan from the left; where the pattern
    matches, drop the match and go on after it; elsewhere keep the
    character and go on with the next one. *)
Equations re_sub (s : str) : str by wf (length s) lt :=
  re_sub [] := [];
  re_sub (c :: s') with inspect (match_think (c :: s')) => {
    | exist _ (Some rest) E := re_sub rest;
    | exist _ None _ := c :: re_sub s' }.
Next Obligation.
  unfold match_think in E.
  destruct (starts_with open_marker (c :: s')); [|discriminate].
  change (drop (length open_marker) (c :: s')) with (drop 6 s') in E.
  assert (Hlen : forall s r, find_after close_marker s = Some r ->
                             length r <= length s).
  { clear. induction s as [|x s IH]; intros r; [discriminate|].
    change (find_after close_marker (x :: s))
      with (if starts_with close_marker (x :: s)
            then Some (drop (length close_marker) (x :: s))
            else find_after close_marker s).
    destruct (starts_with close_marker (x :: s)).
    - intros [= <-]. rewrite length_drop. simpl. lia.
    - intros H. specialize (IH _ H). simpl. lia. }
  apply Hlen in E. rewrite length_drop in E. simpl. lia.
Qed.

Definition strip_thinking (text : str) : str := strip (re_sub text).

(** *** What the spec says the sanitizer removes

    A delimited section of [s] is an occurrence of the open marker
    followed, anywhere later, by the close marker.  [sections_removed s out]
    follows the words of the contract: the leftmost section is cut out,
    closing at the first close marker after its open marker, and the same
    is done with the text after it, until no section is left. *)

Definition section_free (s : str) : Prop :=
  forall a m b, s <> a ++ open_marker ++ m ++ close_marker ++ b.

Inductive sections_removed : str -> str -> Prop :=
| sr_none s :
    section_free s -> sections_removed s s
| sr_section a m b out :
    (forall a' m' b',
        a ++ open_marker ++ m ++ close_marker ++ b
        = a' ++ open_marker ++ m' ++ close_marker ++ b' ->
        length a <= length a') ->
    (forall m' b',
        m ++ close_marker ++ b = m' ++ close_marker ++ b' ->
        length m <= length m') ->
    sections_removed b out ->
    sections_removed (a ++ open_marker ++ m ++ close_marker ++ b) (a ++ out).

(** [contains p s]: Python's [p in s]. *)
Definition contains (p s : str) : bool :=
  match find_after p s with Some _ => true | None => false end.

(** [has_section s]: the pattern matches somewhere in [s]
    ([re.search] finds a match). *)
Fixpoint has_section (s : str) : bool :=
  match s with
  | [] => false
  | _ :: s' =>
      match match_think s with
      | Some _ => true
      | None => has_section s'
      end
  end.

(** [trimmed s t] follows the contract's words for the last step: [t] is
    [s] without its leading and trailing white space. *)
Definition trimmed (s t : str) : Prop :=
  exists l r,
    s = l ++ t ++ r
    /\ Forall (fun c => isspace c = true) l
    /\ Forall (fun c => isspace c = true) r
    /\ (forall c t', t = c :: t' -> isspace c = false)
    /\ (forall c t', t = t' ++ [c] -> isspace c = false).

(** ** Python values, exceptions, results *)

(** The values that travel through the code untyped: the JSON body of
    the endpoint's answer, the request body, and the entries of a post's
    [extra_data]. *)
Inductive pyval :=
| PyNone
| PyBool (b : bool)
| PyInt (z : Z)
| PyFloat (f : float)
| PyStr (s : str)
| PyList (l : list pyval)
| PyDict (items : list (str * pyval)).

(** Truth value of a value in an [if] or [or]. *)
Definition truthy (v : pyval) : bool :=
  match v with
  | PyNone => false
  | PyBool b => b
  | PyInt z => negb (z =? 0)%Z
  | PyFloat f => negb (PrimFloat.eqb f 0%float)
  | PyStr s => negb (Nat.eqb (length s) 0)
  | PyList l => negb (Nat.eqb (length l) 0)
  | PyDict d => negb (Nat.eqb (length d) 0)
  end.

(** An instance of [Exception]: its class name and [str(e)].  Signals
    that are not instances of [Exception] (a cancelled task, an
    interrupt) are outside what [except Exception] sees and outside this
    model. *)
Record exn := Exn { exn_class : string; exn_str : str }.

Inductive result (A : Type) :=
| Ok (a : A)
| Raise (e : exn).
Arguments Ok {A} a.
Arguments Raise {A} e.

(** The name of a value's type, as it shows in a [TypeError]. *)
Definition type_name (v : pyval) : string :=
  match v with
  | PyNone => "NoneType"
  | PyBool _ => "bool"
  | PyInt _ => "int"
  | PyFloat _ => "float"
  | PyStr _ => "str"
  | PyList _ => "list"
  | PyDict _ => "dict"
  end.

Fixpoint assoc_get (k : str) (items : list (str * pyval)) : option pyval :=
  match items with
  | [] => None
  | (k', v) :: rest => if str_eqb k k' then Some v else assoc_get k rest
  end.

(** [v[k]] for a string key [k]; the message texts are CPython's. *)
Definition getitem_key (v : pyval) (k : str) : result pyval :=
  match v with
  | PyDict items =>
      match assoc_get k items with
      | Some x => Ok x
      | None => Raise (Exn "KeyError" (lit "'" ++ k ++ lit "'"))
      end
  | PyList _ =>
      Raise (Exn "TypeError"
                 (lit "list indices must be integers or slices, not str"))
  | PyStr _ =>
      Raise (Exn "TypeError" (lit "string indices must be integers, not 'str'"))
  | _ =>
      Raise (Exn "TypeError"
                 (lit "'" ++ lit (type_name v)
                  ++ lit "' object is not subscriptable"))
  end.

(** [v[0]] *)
Definition getitem_0 (v : pyval) : result pyval :=
  match v with
  | PyList (x :: _) => Ok x
  | PyList [] => Raise (Exn "IndexError" (lit "list index out of range"))
  | PyStr (c :: _) => Ok (PyStr [c])
  | PyStr [] => Raise (Exn "IndexError" (lit "string index out of range"))
  | PyDict _ => Raise (Exn "KeyError" (lit "0"))
  | _ =>
      Raise (Exn "TypeError"
                 (lit "'" ++ lit (type_name v)
                  ++ lit "' object is not subscriptable"))
  end.

(** ** The data of [nuance.models] and [nuance.processing.base] *)

(** Modelled from the spec: [models.PlatformType] is not among the
    sources; the code names its member [TWITTER], the other members are
    kept apart by a tag. *)
Inductive PlatformType :=
| TWITTER
| OTHER_PLATFORM (tag : str).

Definition PlatformType_eqb (a b : PlatformType) : bool :=
  match a, b with
  | TWITTER, TWITTER => true
  | OTHER_PLATFORM x, OTHER_PLATFORM y => str_eqb x y
  | _, _ => false
  end.

(** Modelled from the spec: [models.Post] is not among the sources; these
    are the fields the spec lists, and [account_id], which the tagger
    reads from the quoted post. *)
Record Post := {
  post_id : str;
  account_id : str;
  content : str;
  platform_type : PlatformType;
  extra_data : gmap str pyval;
  topics : list str
}.

Definition set_topics (p : Post) (ts : list str) : Post :=
  {| post_id := post_id p; account_id := account_id p; content := content p;
     platform_type := platform_type p; extra_data := extra_data p;
     topics := ts |}.

(** Modelled from the spec: [models.ProcessingStatus] is not among the
    sources; the spec gives the two members the tagger returns. *)
Inductive ProcessingStatus := ACCEPTED | ERROR.

(** A post is an object: the caller, the tagger and the result all hold
    the same one.  [ref] is its identity. *)
Abbreviation ref := nat.

(** The [details] the tagger reports. *)
Record Details := { details_topics : list str; details_topic_count : nat }.

(** Modelled from the spec: [ProcessingResult] of
    [nuance.processing.base] is not among the sources; [details] and
    [reason] are absent when the constructor call leaves them out. *)
Record ProcessingResult := {
  status : ProcessingStatus;
  output : ref;
  processor_name : str;
  details : option Details;
  reason : option str
}.

(** ** The LLM service *)

Record LLMService := { model_name : str }.

(** The keyword arguments of one call of [async_http_request_with_retry]. *)
Record http_request := {
  req_method : str;
  req_url : str;
  req_headers : list (str * str);
  req_json : pyval
}.

Inductive log_level := DEBUG | INFO | WARNING | LOG_ERROR.

(** One record per logger call of the two modules, with the values its
    message is built from. *)
Inductive log_record :=
| LogInitialized (model : str)
| LogPayload (payload : pyval)
| LogReceivedData (data : pyval)
| LogReceived
| LogLLMResponse (llm_response : pyval)
| LogIsAbout (pid topic : str)
| LogNotAbout (pid topic : str)
| LogQuoteTweet (pid : str) (quoted_status_id : pyval)
| LogNuanceSharing (pid : str) (quoted_status_id : pyval)
| LogOtherAccount (pid : str) (quoted_status_id : pyval) (account : str)
| LogNoQuotedId (pid : str)
| LogNotQuoteTweet (pid : str)
| LogSharingError (pid : str) (e : str)
| LogTagged (pid : str) (count : nat)
| LogTaggingError (pid : str) (e : str).

(** What the run does to the outside, in order. *)
Inductive event :=
| EvGetWallet
| EvHttp (r : http_request)
| EvGetTopicPrompts
| EvGetPost (post_ref : pyval)
| EvLog (lvl : log_level) (r : log_record).

(** The requests handed to the HTTP retry client, in order. *)
Fixpoint http_calls (t : list event) : list http_request :=
  match t with
  | [] => []
  | EvHttp r :: t' => r :: http_calls t'
  | _ :: t' => http_calls t'
  end.

Definition default_model : str := Eval cbv in lit "Qwen/Qwen3-8B".
Definition llm_url : str :=
  Eval cbv in lit "https://llm.chutes.ai/v1/chat/completions".
Definition nuance_sharing : str := Eval cbv in lit "nuance_sharing".
Definition topic_tagger_name : str := Eval cbv in lit "topic_tagger".
Definition true_literal : str := Eval cbv in lit "true".
Definition error_prefix : str := Eval cbv in lit "Error tagging topics: ".

(** [x or y] on an optional string: [None] and the empty string are
    both false. *)
Definition or_str (x : option str) (y : str) : str :=
  match x with
  | Some (c :: s) => c :: s
  | _ => y
  end.

(** [s.lower()]: the ASCII capitals go to their small letters, the
    other ASCII characters stay; [lower_other] is the lower-case mapping
    of the Unicode database for the code points from 128 on, where one
    code point can map to several.  (The one rule of [str.lower] that
    looks at the neighbours, for the capital sigma, chooses between two
    code points above 128.) *)
Definition lower_with (lower_other : N -> str) (s : str) : str :=
  List.concat
    (List.map (fun c => if ((65 <=? c) && (c <=? 90))%N then [(c + 32)%N]
                        else if (c <? 128)%N then [c]
                        else lower_other c) s).

(** What the two modules take from the rest of the program.  [Env] is
    the state of everything outside them (the endpoint, the wallet, the
    constitution store, the platform); a collaborator answers from it,
    or raises, and leaves it changed. *)
Class Collaborators (Env Keypair : Type) := {
  (** [settings.CHUTES_API_KEY] *)
  CHUTES_API_KEY : str;
  (** [cst.NUANCE_SOCIAL_ACCOUNT_ID] *)
  NUANCE_SOCIAL_ACCOUNT_ID : str;
  (** [str.lower] beyond ASCII *)
  lower_other : N -> str;
  (** [template.format(tweet_text=content)]: the text with the
      placeholder filled in, or the error of a template that does not
      parse or names another field *)
  str_format : str -> str -> result str;
  (** [bool(keypair)]: the truth value of a keypair that is passed *)
  keypair_bool : Keypair -> bool;
  (** [(await get_wallet()).hotkey] *)
  get_wallet_hotkey : Env -> result Keypair * Env;
  (** [async_http_request_with_retry]: the parsed body, or the failure
      left after its own retries *)
  async_http_request_with_retry : http_request -> Env -> result pyval * Env;
  (** [constitution_store.get_topic_prompts()]: the items of the mapping
      in iteration order *)
  get_topic_prompts : Env -> result (list (str * str)) * Env;
  (** [TwitterDiscoveryStrategy.get_post] *)
  get_post : pyval -> Env -> result Post * Env
}.

(** The state a run threads: the outside, the class attribute
    [LLMService._instance], the post objects, and the trace. *)
Record World (Env : Type) := {
  env : Env;
  instance : option LLMService;
  heap : ref -> Post;
  trace : list event
}.
Arguments env {Env} _.
Arguments instance {Env} _.
Arguments heap {Env} _.
Arguments trace {Env} _.

Section Effects.

Context {Env : Type}.

Definition M (A : Type) : Type := World Env -> result A * World Env.

Definition ret {A} (a : A) : M A := fun w => (Ok a, w).
Definition raise {A} (e : exn) : M A := fun w => (Raise e, w).
Definition bind {A B} (m : M A) (k : A -> M B) : M B :=
  fun w => match m w with
           | (Ok a, w') => k a w'
           | (Raise e, w') => (Raise e, w')
           end.
(** [try: m  except Exception as e: h e] *)
Definition try_except {A} (m : M A) (h : exn -> M A) : M A :=
  fun w => match m w with
           | (Ok a, w') => (Ok a, w')
           | (Raise e, w') => h e w'
           end.
Definition lift {A} (r : result A) : M A := fun w => (r, w).

Definition recorded (w : World Env) (e : event) : World Env :=
  {| env := env w; instance := instance w; heap := heap w;
     trace := trace w ++ [e] |}.

Definition with_env (w : World Env) (e : Env) : World Env :=
  {| env := e; instance := instance w; heap := heap w; trace := trace w |}.

Definition emit (e : event) : M unit := fun w => (Ok tt, recorded w e).

(** A call of a collaborator: it is recorded, then it answers. *)
Definition call {A} (e : event) (f : Env -> result A * Env) : M A :=
  fun w => let (r, env') := f (env (recorded w e)) in
           (r, with_env (recorded w e) env').

Definition log (lvl : log_level) (r : log_record) : M unit :=
  emit (EvLog lvl r).

Definition read (p : ref) : M Post := fun w => (Ok (heap w p), w).

(** [post.topics = ts] *)
Definition assign_topics (p : ref) (ts : list str) : M unit :=
  fun w => (Ok tt, {| env := env w; instance := instance w;
                      heap := <[p := set_topics (heap w p) ts]> (heap w);
                      trace := trace w |}).

End Effects.
Arguments M : clear implicits.

Declare Scope run_scope.
Delimit Scope run_scope with run.
Notation "x <- m ;; k" := (bind m (fun x => k))
  (at level 100, m at next level, k at level 200, right associativity)
  : run_scope.
Notation "m ;; k" := (bind m (fun _ => k))
  (at level 100, k at level 200, right associativity) : run_scope.

Section Run.

Context {Env Keypair : Type} `{C : Collaborators Env Keypair}.
Local Open Scope run_scope.

(** *** [LLMService] *)

(** [_initialize(model_name)] *)
Definition _initialize (name : option str) : M Env LLMService :=
  let self := {| model_name := or_str name default_model |} in
  log INFO (LogInitialized (model_name self)) ;;
  ret self.

Definition set_instance (i : LLMService) : M Env unit :=
  fun w => (Ok tt, {| env := env w; instance := Some i;
                      heap := heap w; trace := trace w |}).

(** [get_instance], run by one caller from taking the lock to
    releasing it. *)
Definition get_instance (name : option str) : M Env LLMService :=
  fun w => match instance w with
           | None => (i <- _initialize name ;;
                      set_instance i ;;
                      ret i) w
           | Some i => (Ok i, w)
           end.

(** [_call_model]: one request through the HTTP retry client, then the
    answer is read out of the body.  The client session the request is
    sent through is opened before and closed after; it has no part in
    the result and is left out. *)
Definition _call_model (self : LLMService) (prompt model : str)
    (max_tokens : Z) (temperature top_p : float)
    (keypair : option Keypair) : M Env pyval :=
  let url := llm_url in
  let headers :=
    [ (lit "Authorization", lit "Bearer " ++ CHUTES_API_KEY);
      (lit "Content-Type", lit "application/json") ] in
  let payload :=
    PyDict
      [ (lit "model", PyStr model);
        (lit "messages",
          PyList [ PyDict [ (lit "role", PyStr (lit "user"));
                            (lit "content", PyStr prompt) ] ]);
        (lit "stream", PyBool false);
        (lit "max_tokens", PyInt max_tokens);
        (lit "temperature", PyFloat temperature);
        (lit "top_p", PyFloat top_p) ] in
  let request :=
    {| req_method := lit "POST"; req_url := url;
       req_headers := headers; req_json := payload |} in
  data <- call (EvHttp request) (async_http_request_with_retry request) ;;
  log DEBUG (LogPayload payload) ;;
  log DEBUG (LogReceivedData data) ;;
  log INFO LogReceived ;;
  choices <- lift (getitem_key data (lit "choices")) ;;
  choice <- lift (getitem_0 choices) ;;
  message <- lift (getitem_key choice (lit "message")) ;;
  llm_response <- lift (getitem_key message (lit "content")) ;;
  log DEBUG (LogLLMResponse llm_response) ;;
  ret llm_response.

(** [query]: [model or self.model_name], the rest passed on. *)
Definition query (self : LLMService) (prompt : str) (model : option str)
    (max_tokens : Z) (temperature top_p : float)
    (keypair : option Keypair) : M Env pyval :=
  _call_model self prompt (or_str model (model_name self))
              max_tokens temperature top_p keypair.

(** The truth value of the [keypair] argument: [None] is false, a
    keypair that is passed has the truth value of its class. *)
Definition keypair_is_true (keypair : option Keypair) : bool :=
  match keypair with
  | None => false
  | Some k => keypair_bool k
  end.

(** [query_llm]: [if not keypair] the wallet is asked for its hotkey. *)
Definition query_llm (prompt : str) (model : option str)
    (max_tokens : Z) (temperature top_p : float)
    (keypair : option Keypair) : M Env pyval :=
  keypair <- (if negb (keypair_is_true keypair)
              then k <- call EvGetWallet get_wallet_hotkey ;;
                   ret (Some k)
              else ret keypair) ;;
  service <- get_instance None ;;
  query service prompt model max_tokens temperature top_p keypair.

(** [strip_thinking] as the tagger calls it, on whatever the query
    returned: [re.sub] refuses what is not a string. *)
Definition strip_thinking_of (v : pyval) : result str :=
  match v with
  | PyStr text => Ok (strip_thinking text)
  | _ =>
      Raise (Exn "TypeError"
                 (lit "expected string or bytes-like object, got '"
                  ++ lit (type_name v) ++ lit "'"))
  end.

(** *** [TopicTagger] *)

Definition lower (s : str) : str := lower_with lower_other s.

(** [llm_response.strip().lower() == "true"] *)
Definition is_relevant (llm_response : str) : bool :=
  str_eqb (lower (strip llm_response)) true_literal.

(** The loop over [topic_prompts.items()]. *)
Fixpoint check_topics (pid text : str) (items : list (str * str))
    (identified_topics : list str) : M Env (list str) :=
  match items with
  | [] => ret identified_topics
  | (topic, topic_ptompt) :: rest =>
      prompt_about <- lift (str_format topic_ptompt text) ;;
      answer <- query_llm prompt_about None 1024 0.0%float 0.5%float None ;;
      llm_response <- lift (strip_thinking_of answer) ;;
      if is_relevant llm_response then
        log INFO (LogIsAbout pid topic) ;;
        check_topics pid text rest (identified_topics ++ [topic])
      else
        log DEBUG (LogNotAbout pid topic) ;;
        check_topics pid text rest identified_topics
  end.

(** [d.get(key, default)] *)
Definition dict_get (d : gmap str pyval) (key : str) (default : pyval)
  : pyval :=
  match d !! key with
  | Some v => v
  | None => default
  end.

(** The special handling of the topic "nuance_sharing".  The only
    statement of the guarded block that can raise is the lookup, and it
    comes before the append, so the handler finds the list as it was. *)
Definition check_nuance_sharing (post : ref) (pid : str)
    (identified_topics : list str) : M Env (list str) :=
  p <- read post ;;
  if PlatformType_eqb (platform_type p) TWITTER then
    try_except
      (p <- read post ;;
       let is_quote_tweet :=
         dict_get (extra_data p) (lit "is_quote_tweet") (PyBool false) in
       if truthy is_quote_tweet then
         let quoted_status_id :=
           dict_get (extra_data p) (lit "quoted_status_id") PyNone in
         if truthy quoted_status_id then
           log DEBUG (LogQuoteTweet pid quoted_status_id) ;;
           quoted_post <- call (EvGetPost quoted_status_id)
                               (get_post quoted_status_id) ;;
           if str_eqb (account_id quoted_post) NUANCE_SOCIAL_ACCOUNT_ID then
             log INFO (LogNuanceSharing pid quoted_status_id) ;;
             ret (identified_topics ++ [nuance_sharing])
           else
             log DEBUG (LogOtherAccount pid quoted_status_id
                                        (account_id quoted_post)) ;;
             ret identified_topics
         else
           log DEBUG (LogNoQuotedId pid) ;;
           ret identified_topics
       else
         log DEBUG (LogNotQuoteTweet pid) ;;
         ret identified_topics)
      (fun e =>
         log WARNING (LogSharingError pid (exn_str e)) ;;
         ret identified_topics)
  else ret identified_topics.

Definition process (input_data : ref) : M Env ProcessingResult :=
  let post := input_data in
  try_except
    (p <- read post ;;
     let pid := post_id p in
     let text := content p in
     topic_prompts <- call EvGetTopicPrompts get_topic_prompts ;;
     identified_topics <- check_topics pid text topic_prompts [] ;;
     identified_topics <- check_nuance_sharing post pid identified_topics ;;
     assign_topics post identified_topics ;;
     log INFO (LogTagged pid (length identified_topics)) ;;
     ret {| status := ACCEPTED;
            output := post;
            processor_name := topic_tagger_name;
            details :=
              Some {| details_topics := identified_topics;
                      details_topic_count := length identified_topics |};
            reason := None |})
    (fun e =>
       p <- read post ;;
       log LOG_ERROR (LogTaggingError (post_id p) (exn_str e)) ;;
       ret {| status := ERROR;
              output := post;
              processor_name := topic_tagger_name;
              details := None;
              reason := Some (error_prefix ++ exn_str e) |}).

End Run.

(** ** What the claims compare the code with *)

(** The two results the tagger's contract names: accepted, with the
    post and a report of the topics and their number; error, with the
    post and a reason that quotes the exception. *)
Definition accepted_result (post : ref) (ts : list str) : ProcessingResult :=
  {| status := ACCEPTED; output := post; processor_name := topic_tagger_name;
     details := Some {| details_topics := ts;
                        details_topic_count := length ts |};
     reason := None |}.

Definition error_result (post : ref) (e : exn) : ProcessingResult :=
  {| status := ERROR; output := post; processor_name := topic_tagger_name;
     details := None; reason := Some (error_prefix ++ exn_str e) |}.

(** The first completion choice's content:
    [data["choices"][0]["message"]["content"]]. *)
Definition first_choice_content (data : pyval) : result pyval :=
  match getitem_key data (lit "choices") with
  | Raise e => Raise e
  | Ok choices =>
      match getitem_0 choices with
      | Raise e => Raise e
      | Ok choice =>
          match getitem_key choice (lit "message") with
          | Raise e => Raise e
          | Ok message => getitem_key message (lit "content")
          end
      end
  end.

(** The contract's words for the result, read off the shape of the
    body and not through the subscripts of the code: the body is an
    object whose [choices] is a list, the first element of that list is an
    object whose [message] is an object, and [c] is what that object has
    under [content].  [has_field d k v]: the object [d] has [v] under the
    key [k]. *)
Definition has_field (d : pyval) (k : str) (v : pyval) : Prop :=
  exists before after,
    d = PyDict (before ++ (k, v) :: after)
    /\ ~ In k (List.map fst before).

Definition first_choice_has_content (data c : pyval) : Prop :=
  exists first_choice later_choices message,
    has_field data (lit "choices") (PyList (first_choice :: later_choices))
    /\ has_field first_choice (lit "message") message
    /\ has_field message (lit "content") c.

(** The model the request body names. *)
Definition request_model (r : http_request) : result pyval :=
  getitem_key (req_json r) (lit "model").

(** The events of a call of [query_llm]: it asks for the wallet and it
    posts the request. *)
Definition is_llm_event (e : event) : bool :=
  match e with
  | EvGetWallet | EvHttp _ => true
  | _ => false
  end.

Definition llm_events (t : list event) : list event :=
  List.filter is_llm_event t.

(** The answers that were read out of the endpoint's bodies, in order:
    one [LogLLMResponse] record per completed query. *)
Fixpoint answers_of (t : list event) : list pyval :=
  match t with
  | [] => []
  | EvLog _ (LogLLMResponse v) :: t' => v :: answers_of t'
  | _ :: t' => answers_of t'
  end.

Section Expected.

Context {Env Keypair : Type} `{C : Collaborators Env Keypair}.

(** The topics of the mapping, in its order, whose answer classifies
    as relevant. *)
Fixpoint relevant_topics (items : list (str * str)) (answers : list str)
  : list str :=
  match items, answers with
  | (topic, _) :: items', a :: answers' =>
      if is_relevant (strip_thinking a)
      then topic :: relevant_topics items' answers'
      else relevant_topics items' answers'
  | _, _ => []
  end.

(** The quote relationship of the special case: the post is on
    Twitter, is marked as a quote tweet, names the quoted post, the
    lookup of that post returns, and its account is the Nuance
    account. *)
Definition quotes_nuance (p : Post) (e : Env) : bool :=
  match platform_type p with
  | TWITTER =>
      truthy (dict_get (extra_data p) (lit "is_quote_tweet") (PyBool false))
      && truthy (dict_get (extra_data p) (lit "quoted_status_id") PyNone)
      && match get_post (dict_get (extra_data p) (lit "quoted_status_id")
                                  PyNone) e with
         | (Ok quoted_post, _) =>
             str_eqb (account_id quoted_post) NUANCE_SOCIAL_ACCOUNT_ID
         | (Raise _, _) => false
         end
  | OTHER_PLATFORM _ => false
  end.

(** The lookup of the special case fails, or the data it needs is not
    there. *)
Definition lookup_fails (p : Post) (e : Env) : Prop :=
  platform_type p = TWITTER
  /\ (extra_data p !! lit "is_quote_tweet" = None
      \/ extra_data p !! lit "quoted_status_id" = None
      \/ (truthy (dict_get (extra_data p) (lit "is_quote_tweet")
                            (PyBool false)) = true
          /\ truthy (dict_get (extra_data p) (lit "quoted_status_id")
                               PyNone) = true
          /\ exists ex e',
              get_post (dict_get (extra_data p) (lit "quoted_status_id")
                                 PyNone) e
              = (Raise ex, e'))).

End Expected.

(** ** Scripted collaborators, to run the code on *)

(** A small [str.format]: [{tweet_text}] is replaced, doubled braces
    are escapes, any other brace is an error. *)
Fixpoint format_tweet_text (fuel : nat) (template text : str) : result str :=
  match fuel with
  | O => Ok []
  | S fuel' =>
      match template with
      | [] => Ok []
      | c :: rest =>
          if starts_with (lit "{tweet_text}") template then
            match format_tweet_text fuel' (drop 12 template) text with
            | Ok out => Ok (text ++ out)
            | Raise e => Raise e
            end
          else if starts_with (lit "{{") template
                  || starts_with (lit "}}") template then
            match format_tweet_text fuel' (drop 2 template) text with
            | Ok out => Ok (c :: out)
            | Raise e => Raise e
            end
          else if (c =? 123)%N || (c =? 125)%N then
            Raise (Exn "ValueError"
                       (lit "Single brace encountered in format string"))
          else
            match format_tweet_text fuel' rest text with
            | Ok out => Ok (c :: out)
            | Raise e => Raise e
            end
      end
  end.

(** The outside is the list of answers the endpoint still has to give;
    the prompt mapping and the quoted-post lookup answer as told.  A
    keypair is a boolean, which is its own truth value. *)
Definition scripted (prompts : result (list (str * str)))
    (quoted : result Post) : Collaborators (list (result pyval)) bool := {|
  CHUTES_API_KEY := lit "secret";
  NUANCE_SOCIAL_ACCOUNT_ID := lit "nuance";
  lower_other := fun c => [c];
  str_format := fun template text =>
    format_tweet_text (S (length template)) template text;
  keypair_bool := fun k => k;
  get_wallet_hotkey := fun e => (Ok true, e);
  async_http_request_with_retry := fun _ e =>
    match e with
    | [] => (Raise (Exn "ClientError" (lit "no more retries")), [])
    | r :: e' => (r, e')
    end;
  get_topic_prompts := fun e => (prompts, e);
  get_post := fun _ e => (quoted, e)
|}.

(** A well-formed body of the endpoint with the given content. *)
Definition completion (text : string) : result pyval :=
  Ok (PyDict
        [ (lit "choices",
           PyList
             [ PyDict
                 [ (lit "message",
                    PyDict [ (lit "role", PyStr (lit "assistant"));
                             (lit "content", PyStr (lit text)) ]) ] ]) ]).

Definition a_post (platform : PlatformType) (extra : gmap str pyval) : Post :=
  {| post_id := lit "p1"; account_id := lit "alice";
     content := lit "hello world"; platform_type := platform;
     extra_data := extra; topics := [lit "old"] |}.

Definition a_quoted_post (account : string) : Post :=
  {| post_id := lit "42"; account_id := lit account;
     content := lit "news"; platform_type := TWITTER;
     extra_data := ∅; topics := [] |}.

Definition a_world (answers : list (result pyval)) (p : Post)
  : World (list (result pyval)) :=
  {| env := answers; instance := None; heap := fun _ => p; trace := [] |}.

Definition abc_prompts : list (str * str) :=
  [ (lit "A", lit "Is this about A? {tweet_text}");
    (lit "B", lit "Is this about B? {tweet_text}");
    (lit "C", lit "Is this about C? {tweet_text}") ].

Definition quote_of (id : string) : gmap str pyval :=
  <[lit "is_quote_tweet" := PyBool true]>
    (<[lit "quoted_status_id" := PyStr (lit id)]> ∅).

(** ** [LLMService.get_instance] under concurrent callers

    Tasks of one event loop run one at a time and change hands only at
    an [await].  [get_instance] has two: entering [async with cls._lock],
    where a task waits while another holds the lock, and
    [await instance._initialize(...)].  A caller is therefore in one of
    the places below, and a step is what one caller does between two
    such points.  Any caller may be scheduled next. *)

Module Singleton.

Inductive pc :=
| Arrived                                (* before [async with cls._lock] *)
| Locked                                 (* in the block, before the test *)
| Constructed (obj : nat)                (* [super().__new__(cls)] done *)
| Initialized (obj : nat) (self : LLMService)  (* [_initialize] returned *)
| Returned (obj : nat) (self : LLMService).    (* out of the block, with
                                                  [cls._instance] *)

(** A caller: the [model_name] it passed, and where it stands. *)
Record caller := { arg : option str; at_ : pc }.

Record state := {
  callers : list caller;
  (** [cls._lock]: free, or held by a caller *)
  lock : option nat;
  (** [cls._instance]: the object's identity and attributes *)
  _instance : option (nat * LLMService);
  (** objects made by [__new__] so far; the next one's identity *)
  created : nat;
  (** runs of [_initialize] so far *)
  inits : nat
}.

Definition move (n : nat) (c : caller) (p : pc) (s : state) : list caller :=
  <[n := {| arg := arg c; at_ := p |}]> (callers s).

(** What caller [n] does when it is scheduled; [None] when it cannot
    move: it waits for the lock, or it has returned. *)
Definition step (n : nat) (s : state) : option state :=
  match callers s !! n with
  | None => None
  | Some c =>
      match at_ c with
      | Arrived =>
          match lock s with
          | Some _ => None
          | None =>
              Some {| callers := move n c Locked s; lock := Some n;
                      _instance := _instance s; created := created s;
                      inits := inits s |}
          end
      | Locked =>
          match _instance s with
          | None =>
              Some {| callers := move n c (Constructed (created s)) s;
                      lock := lock s; _instance := None;
                      created := S (created s); inits := inits s |}
          | Some (obj, self) =>
              Some {| callers := move n c (Returned obj self) s;
                      lock := None; _instance := _instance s;
                      created := created s; inits := inits s |}
          end
      | Constructed obj =>
          let self := {| model_name := or_str (arg c) default_model |} in
          Some {| callers := move n c (Initialized obj self) s;
                  lock := lock s; _instance := _instance s;
                  created := created s; inits := S (inits s) |}
      | Initialized obj self =>
          Some {| callers := move n c (Returned obj self) s;
                  lock := None; _instance := Some (obj, self);
                  created := created s; inits := inits s |}
      | Returned _ _ => None
      end
  end.

(** A schedule names the caller to run at each turn; a caller that
    cannot move lets the turn pass. *)
Fixpoint run (schedule : list nat) (s : state) : state :=
  match schedule with
  | [] => s
  | n :: rest =>
      run rest (match step n s with Some s' => s' | None => s end)
  end.

(** First-time callers: nobody holds the lock, there is no instance. *)
Definition start (args : list (option str)) : state :=
  {| callers := (fun a => {| arg := a; at_ := Arrived |}) <$> args;
     lock := None; _instance := None; created := 0; inits := 0 |}.

Definition holds_lock (p : pc) : bool :=
  match p with
  | Locked | Constructed _ | Initialized _ _ => true
  | Arrived | Returned _ _ => false
  end.

Definition initializing (p : pc) : bool :=
  match p with
  | Constructed _ | Initialized _ _ => true
  | _ => false
  end.

Definition has_returned (p : pc) : bool :=
  match p with Returned _ _ => true | _ => false end.

Definition all_returned (s : state) : bool :=
  forallb (fun c => has_returned (at_ c)) (callers s).

(** The steps a caller may still take. *)
Definition steps_left (p : pc) : nat :=
  match p with
  | Arrived => 4
  | Locked => 3
  | Constructed _ => 2
  | Initialized _ _ => 1
  | Returned _ _ => 0
  end.

Definition remaining (s : state) : nat :=
  list_sum (List.map (fun c => steps_left (at_ c)) (callers s)).

(** What holds of each caller, and of the class attributes, in every
    state a run can reach. *)
Definition caller_ok (s : state) (n : nat) (c : caller) : Prop :=
  match at_ c with
  | Arrived => True
  | Locked =>
      lock s = Some n /\ (_instance s = None -> created s = 0 /\ inits s = 0)
  | Constructed obj =>
      lock s = Some n /\ _instance s = None
      /\ obj = 0 /\ created s = 1 /\ inits s = 0
  | Initialized obj self =>
      lock s = Some n /\ _instance s = None
      /\ obj = 0 /\ created s = 1 /\ inits s = 1
      /\ self = {| model_name := or_str (arg c) default_model |}
  | Returned obj self => _instance s = Some (obj, self)
  end.

Definition invariant (s : state) : Prop :=
  (forall n c, callers s !! n = Some c -> caller_ok s n c)
  /\ (forall n, lock s = Some n ->
                exists c, callers s !! n = Some c /\ holds_lock (at_ c) = true)
  /\ (lock s = None -> _instance s = None -> created s = 0 /\ inits s = 0)
  /\ (forall obj self,
        _instance s = Some (obj, self) ->
        obj = 0 /\ created s = 1 /\ inits s = 1
        /\ exists n c,
            callers s !! n = Some c
            /\ self = {| model_name := or_str (arg c) default_model |}).

End Singleton.

(** ** What the further properties compare the code with *)

(** The lookups asked of the discovery collaborator, in order. *)
Fixpoint get_post_calls (t : list event) : list pyval :=
  match t with
  | [] => []
  | EvGetPost v :: t' => v :: get_post_calls t'
  | _ :: t' => get_post_calls t'
  end.

(** The request [_call_model] builds, field by field as in the source. *)
Definition chat_request (api_key prompt model : str) (max_tokens : Z)
    (temperature top_p : float) : http_request :=
  {| req_method := lit "POST";
     req_url := llm_url;
     req_headers :=
       [ (lit "Authorization", lit "Bearer " ++ api_key);
         (lit "Content-Type", lit "application/json") ];
     req_json :=
       PyDict
         [ (lit "model", PyStr model);
           (lit "messages",
             PyList [ PyDict [ (lit "role", PyStr (lit "user"));
                               (lit "content", PyStr prompt) ] ]);
           (lit "stream", PyBool false);
           (lit "max_tokens", PyInt max_tokens);
           (lit "temperature", PyFloat temperature);
           (lit "top_p", PyFloat top_p) ] |}.

(** The service [get_instance()] answers with: the one that is
    published, or else a new one with the default model. *)
Definition service_of (published : option LLMService) : LLMService :=
  match published with
  | Some self => self
  | None => {| model_name := default_model |}
  end.

(** The sanitizer applied [n] times. *)
Fixpoint strip_thinking_times (n : nat) (text : str) : str :=
  match n with
  | O => text
  | S n' => strip_thinking_times n' (strip_thinking text)
  end.

Section ExpectedMore.

Context {Env Keypair : Type} `{C : Collaborators Env Keypair}.

(** The request one query of the tagger amounts to: the defaults of
    [query_llm] and the temperature the tagger passes. *)
Definition tagger_request (self : LLMService) (prompt : str) : http_request :=
  chat_request CHUTES_API_KEY prompt (model_name self)
               1024 0%float 0.5%float.

(** The special case gets as far as the lookup: the post is on Twitter,
    is marked as a quote tweet and names the quoted post. *)
Definition reaches_lookup (p : Post) : bool :=
  PlatformType_eqb (platform_type p) TWITTER
  && truthy (dict_get (extra_data p) (lit "is_quote_tweet") (PyBool false))
  && truthy (dict_get (extra_data p) (lit "quoted_status_id") PyNone).

(** [prompts] are the templates of [items], one by one, filled in with
    [text]. *)
Definition formats_to (text : str) (items : list (str * str))
    (prompts : list str) : Prop :=
  Forall2 (fun item prompt => str_format (snd item) text = Ok prompt)
          items prompts.

End ExpectedMore.

(** The exception the tagger meets in what the HTTP retry client hands
    back, if any: the client's own failure, the error of reading the
    content out of the body, or the error of sanitizing a content that
    is not a string. *)
Definition answer_error (outcome : result pyval) : option exn :=
  match outcome with
  | Raise e => Some e
  | Ok data =>
      match first_choice_content data with
      | Raise e => Some e
      | Ok (PyStr _) => None
      | Ok v =>
          Some (Exn "TypeError"
                    (lit "expected string or bytes-like object, got '"
                     ++ lit (type_name v) ++ lit "'"))
      end
  end.

(** * Properties *)

(** ** Properties of the string operations *)

Lemma find_after_length p s r :
  find_after p s = Some r -> length r <= length s.
Proof.
  induction s as [|c s IH]; simpl.
  - destruct (starts_with p []); [|discriminate].
    intros [= <-]. rewrite length_drop. simpl. lia.
  - destruct (starts_with p (c :: s)).
    + intros [= <-]. rewrite length_drop. simpl. lia.
    + intros H. specialize (IH H). lia.
Qed.

Lemma match_think_length s r :
  match_think s = Some r -> length r < length s.
Proof.
  unfold match_think.
  destruct (starts_with open_marker s) eqn:E; [|discriminate].
  intros H. apply find_after_length in H. rewrite length_drop in H.
  destruct s as [|c s]; [discriminate|]. simpl in *. lia.
Qed.


Lemma starts_with_app p r : starts_with p (p ++ r) = true.
Proof.
  induction p as [|x p IH]; simpl; [reflexivity|].
  rewrite N.eqb_refl. exact IH.
Qed.

Lemma starts_with_inv p s :
  starts_with p s = true -> s = p ++ drop (length p) s.
Proof.
  revert s. induction p as [|x p IH]; intros [|y s]; simpl; try discriminate;
    try reflexivity.
  intros H. apply andb_true_iff in H as [Hxy H].
  apply N.eqb_eq in Hxy. subst y. f_equal. apply IH, H.
Qed.

Lemma starts_with_false p s r : starts_with p s = false -> s <> p ++ r.
Proof.
  intros H ->. rewrite starts_with_app in H. discriminate.
Qed.

Lemma drop_length_app (p r : str) : drop (length p) (p ++ r) = r.
Proof. induction p; simpl; auto. Qed.

(** [find_after] cuts at the first occurrence. *)
Lemma find_after_Some p s b :
  find_after p s = Some b ->
  exists a, s = a ++ p ++ b /\
            forall a' b', s = a' ++ p ++ b' -> length a <= length a'.
Proof.
  revert b. induction s as [|c s IH]; intros b; simpl.
  - destruct (starts_with p []) eqn:E; [|discriminate].
    intros [= <-]. exists []. split.
    + apply (starts_with_inv _ _ E).
    + intros; simpl; lia.
  - destruct (starts_with p (c :: s)) eqn:E.
    + intros [= <-]. exists []. split.
      * apply (starts_with_inv _ _ E).
      * intros; simpl; lia.
    + intros H. destruct (IH _ H) as (a & -> & Hmin).
      exists (c :: a). split; [reflexivity|].
      intros [|c' a'] b' Heq.
      * exfalso. simpl in Heq. revert E. rewrite Heq, starts_with_app.
        discriminate.
      * simpl in Heq. injection Heq as _ Heq.
        specialize (Hmin _ _ Heq). simpl. lia.
Qed.

Lemma find_after_None p s :
  find_after p s = None -> forall a b, s <> a ++ p ++ b.
Proof.
  induction s as [|c s IH]; simpl.
  - destruct (starts_with p []) eqn:E; [discriminate|].
    intros _ [|c a] b Heq; simpl in Heq.
    + revert E. rewrite Heq, starts_with_app. discriminate.
    + discriminate.
  - destruct (starts_with p (c :: s)) eqn:E; [discriminate|].
    intros H [|c' a] b Heq; simpl in Heq.
    + revert E. rewrite Heq, starts_with_app. discriminate.
    + injection Heq as _ Heq. exact (IH H _ _ Heq).
Qed.

Lemma find_after_first p m b :
  (forall m' b', m ++ p ++ b = m' ++ p ++ b' -> length m <= length m') ->
  find_after p (m ++ p ++ b) = Some b.
Proof.
  intros Hmin.
  destruct (find_after p (m ++ p ++ b)) as [r|] eqn:E.
  - apply find_after_Some in E as (a & Heq & Hfirst).
    pose proof (Hmin _ _ Heq) as H1.
    pose proof (Hfirst m b eq_refl) as H2.
    assert (Hlen : length a = length m) by lia.
    apply app_inj_1 in Heq as [_ Heq]; [|symmetry; exact Hlen].
    apply app_inv_head in Heq. congruence.
  - exfalso. exact (find_after_None _ _ E _ _ eq_refl).
Qed.

Lemma match_think_Some s r :
  match_think s = Some r ->
  exists m, s = open_marker ++ m ++ close_marker ++ r /\
            forall m' b', m ++ close_marker ++ r = m' ++ close_marker ++ b' ->
                          length m <= length m'.
Proof.
  unfold match_think.
  destruct (starts_with open_marker s) eqn:E; [|discriminate].
  intros H. apply find_after_Some in H as (m & Heq & Hmin).
  exists m. split.
  - rewrite (starts_with_inv _ _ E), Heq. reflexivity.
  - intros m' b' Heq'. apply (Hmin m' b'). rewrite Heq. exact Heq'.
Qed.

Lemma match_think_None s :
  match_think s = None ->
  forall m b, s <> open_marker ++ m ++ close_marker ++ b.
Proof.
  unfold match_think. destruct (starts_with open_marker s) eqn:E.
  - intros H m b ->. rewrite drop_length_app in H.
    exact (find_after_None _ _ H _ _ eq_refl).
  - intros _ m b. apply starts_with_false, E.
Qed.

Lemma match_think_first m b :
  (forall m' b', m ++ close_marker ++ b = m' ++ close_marker ++ b' ->
                 length m <= length m') ->
  match_think (open_marker ++ m ++ close_marker ++ b) = Some b.
Proof.
  intros Hmin. unfold match_think.
  rewrite starts_with_app, drop_length_app. apply find_after_first, Hmin.
Qed.

(** The scan, one step at a time. *)
Lemma re_sub_cons c s :
  re_sub (c :: s) =
  match match_think (c :: s) with
  | Some rest => re_sub rest
  | None => c :: re_sub s
  end.
Proof.
  transitivity (match inspect (match_think (c :: s)) with
                | exist _ (Some rest) _ => re_sub rest
                | exist _ None _ => c :: re_sub s
                end).
  - rewrite re_sub_equation_2.
    destruct (inspect (match_think (c :: s))) as [[r|] E]; reflexivity.
  - unfold inspect. destruct (match_think (c :: s)); reflexivity.
Qed.

Lemma re_sub_match s r : match_think s = Some r -> re_sub s = re_sub r.
Proof.
  destruct s as [|c s]; [discriminate|].
  intros H. rewrite re_sub_cons, H. reflexivity.
Qed.

Lemma re_sub_nomatch c s :
  match_think (c :: s) = None -> re_sub (c :: s) = c :: re_sub s.
Proof. intros H. rewrite re_sub_cons, H. reflexivity. Qed.

Lemma section_free_tail c s : section_free (c :: s) -> section_free s.
Proof. intros H a m b ->. exact (H (c :: a) m b eq_refl). Qed.

Lemma section_free_no_match s : section_free s -> match_think s = None.
Proof.
  intros H. destruct (match_think s) as [r|] eqn:E; [|reflexivity].
  apply match_think_Some in E as (m & Heq & _).
  exfalso. exact (H [] m r Heq).
Qed.

Lemma section_free_cons c s :
  match_think (c :: s) = None -> section_free s -> section_free (c :: s).
Proof.
  intros Hm Hs [|c' a] m b Heq.
  - exact (match_think_None _ Hm _ _ Heq).
  - simpl in Heq. injection Heq as _ Heq. exact (Hs _ _ _ Heq).
Qed.

(** Without a section nothing is removed. *)
Lemma re_sub_section_free s : section_free s -> re_sub s = s.
Proof.
  induction s as [|c s IH]; intros H.
  - simp re_sub. reflexivity.
  - rewrite re_sub_nomatch by (apply section_free_no_match, H).
    rewrite IH by (apply (section_free_tail c), H). reflexivity.
Qed.

(** The leftmost section, closed at the first close marker, is what the
    scan drops first. *)
Lemma re_sub_leftmost a m b :
  (forall a' m' b',
      a ++ open_marker ++ m ++ close_marker ++ b
      = a' ++ open_marker ++ m' ++ close_marker ++ b' ->
      length a <= length a') ->
  (forall m' b',
      m ++ close_marker ++ b = m' ++ close_marker ++ b' ->
      length m <= length m') ->
  re_sub (a ++ open_marker ++ m ++ close_marker ++ b) = a ++ re_sub b.
Proof.
  intros Hleft Hfirst. induction a as [|c a IH].
  - simpl. apply re_sub_match, match_think_first, Hfirst.
  - simpl. rewrite re_sub_nomatch.
    + f_equal. apply IH. intros a' m' b' Heq.
      specialize (Hleft (c :: a') m' b'). simpl in Hleft.
      specialize (Hleft (f_equal (cons c) Heq)). lia.
    + destruct (match_think _) as [r|] eqn:E; [|reflexivity].
      apply match_think_Some in E as (m' & Heq & _).
      specialize (Hleft [] m' r Heq). simpl in Hleft. lia.
Qed.

Lemma sections_removed_cons c s out :
  match_think (c :: s) = None ->
  sections_removed s out -> sections_removed (c :: s) (c :: out).
Proof.
  intros Hm H. destruct H as [s Hfree | a m b out Hleft Hfirst Hrest].
  - apply sr_none, section_free_cons; assumption.
  - apply (sr_section (c :: a) m b out); [|assumption..].
    intros [|c' a'] m' b' Heq.
    + exfalso. exact (match_think_None _ Hm _ _ Heq).
    + simpl in Heq. injection Heq as _ Heq.
      specialize (Hleft _ _ _ Heq). simpl. lia.
Qed.

(** The scan does what the contract says ... *)
Lemma re_sub_sections_removed s : sections_removed s (re_sub s).
Proof.
  remember (length s) as n eqn:Hn. revert s Hn.
  induction n as [n IH] using lt_wf_ind. intros [|c s] Hn.
  - simp re_sub. apply sr_none. intros [|? ?] m b Heq; discriminate.
  - rewrite re_sub_cons. destruct (match_think (c :: s)) as [r|] eqn:E.
    + pose proof (match_think_length _ _ E) as Hlen.
      destruct (match_think_Some _ _ E) as (m & Heq & Hfirst).
      rewrite Heq.
      apply (sr_section [] m r (re_sub r)).
      * intros; simpl; lia.
      * exact Hfirst.
      * apply (IH (length r)); [lia | reflexivity].
    + apply sections_removed_cons; [exact E|].
      apply (IH (length s)); [simpl in Hn; lia | reflexivity].
Qed.

(** ... and nothing else does. *)
Lemma sections_removed_fun s out : sections_removed s out -> out = re_sub s.
Proof.
  induction 1 as [s Hfree | a m b out Hleft Hfirst _ IH].
  - symmetry. apply re_sub_section_free, Hfree.
  - rewrite re_sub_leftmost by assumption. rewrite IH. reflexivity.
Qed.

Lemma re_sub_length s : length (re_sub s) <= length s.
Proof.
  remember (length s) as n eqn:Hn. revert s Hn.
  induction n as [n IH] using lt_wf_ind. intros [|c s] Hn.
  - simp re_sub. simpl. lia.
  - rewrite re_sub_cons. destruct (match_think (c :: s)) as [r|] eqn:E.
    + pose proof (match_think_length _ _ E) as Hlen.
      specialize (IH (length r) ltac:(lia) r eq_refl). lia.
    + simpl in Hn. specialize (IH (length s) ltac:(lia) s eq_refl).
      simpl. lia.
Qed.

(** [has_section] decides [section_free]. *)
Lemma has_section_false s : has_section s = false -> section_free s.
Proof.
  induction s as [|c s IH]; simpl.
  - intros _ [|? ?] m b Heq; discriminate.
  - destruct (match_think (c :: s)) eqn:E; [discriminate|].
    intros H. apply section_free_cons; auto.
Qed.

Lemma has_section_true s : has_section s = true -> ~ section_free s.
Proof.
  induction s as [|c s IH]; simpl; [discriminate|].
  destruct (match_think (c :: s)) eqn:E.
  - intros _ Hfree. rewrite (section_free_no_match _ Hfree) in E. discriminate.
  - intros H Hfree. apply (IH H). apply (section_free_tail c), Hfree.
Qed.

Lemma has_section_shrinks s :
  has_section s = true -> length (re_sub s) < length s.
Proof.
  induction s as [|c s IH]; simpl; [discriminate|].
  rewrite re_sub_cons. destruct (match_think (c :: s)) as [r|] eqn:E.
  - intros _. pose proof (match_think_length _ _ E) as Hlen. simpl in Hlen.
    pose proof (re_sub_length r). lia.
  - intros H. specialize (IH H). simpl. lia.
Qed.

Lemma contains_false_free p s :
  contains p s = false -> forall a b, s <> a ++ p ++ b.
Proof.
  unfold contains. destruct (find_after p s) eqn:E; [discriminate|].
  intros _. apply find_after_None, E.
Qed.

Lemma no_open_marker_free s :
  contains open_marker s = false -> section_free s.
Proof.
  intros H a m b. apply (contains_false_free _ _ H).
Qed.

(** ** Trimming *)

Lemma lstrip_idem s : lstrip (lstrip s) = lstrip s.
Proof.
  induction s as [|c s IH]; simpl; [reflexivity|].
  destruct (isspace c) eqn:E; [exact IH|]. simpl. rewrite E. reflexivity.
Qed.

Lemma lstrip_length s : length (lstrip s) <= length s.
Proof.
  induction s as [|c s IH]; simpl; [lia|].
  destruct (isspace c); simpl; lia.
Qed.

Lemma lstrip_fixed_head c t :
  lstrip (c :: t) = c :: t -> isspace c = false.
Proof.
  simpl. destruct (isspace c); [|reflexivity].
  intros H. pose proof (lstrip_length t) as Hlen. rewrite H in Hlen.
  simpl in Hlen. lia.
Qed.

Lemma lstrip_snoc s c :
  isspace c = false -> lstrip (s ++ [c]) = lstrip s ++ [c].
Proof.
  intros Hc. induction s as [|x s IH]; simpl.
  - rewrite Hc. reflexivity.
  - destruct (isspace x); [exact IH | reflexivity].
Qed.

Lemma rstrip_cons c s :
  isspace c = false -> rstrip (c :: s) = c :: rstrip s.
Proof.
  intros Hc. unfold rstrip. simpl.
  rewrite lstrip_snoc by exact Hc. rewrite rev_app_distr. reflexivity.
Qed.

Lemma rstrip_idem s : rstrip (rstrip s) = rstrip s.
Proof. unfold rstrip. rewrite rev_involutive, lstrip_idem. reflexivity. Qed.

Lemma rstrip_length s : length (rstrip s) <= length s.
Proof.
  unfold rstrip. rewrite length_rev.
  pose proof (lstrip_length (rev s)) as H. rewrite length_rev in H. exact H.
Qed.

Lemma lstrip_fixed_rstrip t : lstrip t = t -> lstrip (rstrip t) = rstrip t.
Proof.
  destruct t as [|c t]; [reflexivity|].
  intros H. pose proof (lstrip_fixed_head _ _ H) as Hc.
  rewrite rstrip_cons by exact Hc. simpl. rewrite Hc. reflexivity.
Qed.

Lemma strip_idem s : strip (strip s) = strip s.
Proof.
  unfold strip.
  rewrite (lstrip_fixed_rstrip (lstrip s)) by apply lstrip_idem.
  apply rstrip_idem.
Qed.

Lemma strip_length s : length (strip s) <= length s.
Proof.
  unfold strip. pose proof (rstrip_length (lstrip s)).
  pose proof (lstrip_length s). lia.
Qed.

Lemma lstrip_split s :
  exists l, s = l ++ lstrip s /\ Forall (fun c => isspace c = true) l.
Proof.
  induction s as [|c s (l & Heq & Hl)]; simpl.
  - exists []. split; [reflexivity | constructor].
  - destruct (isspace c) eqn:E.
    + exists (c :: l). split; [simpl; congruence | constructor; assumption].
    + exists []. split; [reflexivity | constructor].
Qed.

Lemma rstrip_split s :
  exists r, s = rstrip s ++ r /\ Forall (fun c => isspace c = true) r.
Proof.
  destruct (lstrip_split (rev s)) as (l & Heq & Hl).
  exists (rev l). split.
  - unfold rstrip. rewrite <- rev_app_distr, <- Heq, rev_involutive.
    reflexivity.
  - apply Forall_rev, Hl.
Qed.

(** [strip] trims, in the contract's sense. *)
Lemma strip_trimmed s : trimmed s (strip s).
Proof.
  destruct (lstrip_split s) as (l & Hl & Hsl).
  destruct (rstrip_split (lstrip s)) as (r & Hr & Hsr).
  exists l, r. repeat split; try assumption.
  - rewrite Hl at 1. f_equal. exact Hr.
  - intros c t' Heq. apply (lstrip_fixed_head c t'). rewrite <- Heq.
    unfold strip. apply lstrip_fixed_rstrip, lstrip_idem.
  - intros c t' Heq. apply (lstrip_fixed_head c (rev t')).
    assert (Hrev : c :: rev t' = lstrip (rev (lstrip s))).
    { unfold strip, rstrip in Heq.
      apply (f_equal (@rev N)) in Heq.
      rewrite rev_involutive, rev_app_distr in Heq. simpl in Heq.
      symmetry. exact Heq. }
    rewrite Hrev. apply lstrip_idem.
Qed.

Lemma strip_no_new_section s : section_free s -> section_free (strip s).
Proof.
  intros Hfree a m b Heq.
  destruct (strip_trimmed s) as (l & r & Hs & _).
  apply (Hfree (l ++ a) m (b ++ r)).
  rewrite Hs, Heq. rewrite <- !app_assoc. reflexivity.
Qed.

(** ** The sanitizer *)

(** C7.  [strip_thinking] cuts every delimited section out of the text,
    the leftmost first and each closed at the first close marker after
    its open marker, markers included, whatever the characters in
    between, then trims white space from both ends of what is left
    ([sections_removed] and [trimmed] are the contract's words).  It turns
    [<think>ignored</think>true] into [true]; several sections, a section
    with a newline inside and a second close marker behave as said; and
    on a text with neither marker it is plain trimming. *)
Theorem strip_thinking_removes_sections :
  (forall x, exists rest,
      sections_removed x rest /\ trimmed rest (strip_thinking x))
  /\ (forall x rest, sections_removed x rest -> strip_thinking x = strip rest)
  /\ strip_thinking (lit "<think>ignored</think>true") = lit "true"
  /\ strip_thinking (lit "<think>a</think> x <think>b</think>y ") = lit "x y"
  /\ strip_thinking (lit "<think>a" ++ [10%N] ++ lit "b</think>true")
     = lit "true"
  /\ strip_thinking (lit "<think>a</think>kept</think>") = lit "kept</think>"
  /\ (forall x,
         contains open_marker x = false ->
         contains close_marker x = false ->
         strip_thinking x = strip x).
Proof.
  split; [|split; [|repeat split]].
  - intros x. exists (re_sub x). split.
    + apply re_sub_sections_removed.
    + apply strip_trimmed.
  - intros x rest H. unfold strip_thinking.
    rewrite (sections_removed_fun _ _ H). reflexivity.
  - intros x Hopen _. unfold strip_thinking.
    rewrite re_sub_section_free; [reflexivity|].
    apply no_open_marker_free, Hopen.
Qed.

Lemma strip_thinking_removes_sections_witness :
  contains open_marker (lit "  plain answer ") = false
  /\ contains close_marker (lit "  plain answer ") = false
  /\ strip_thinking (lit "  plain answer ") = lit "plain answer".
Proof.
  split; [reflexivity|]. split; [reflexivity|].
  rewrite (proj2 (proj2 (proj2 (proj2 (proj2 (proj2
             strip_thinking_removes_sections)))))
             (lit "  plain answer ") eq_refl eq_refl).
  reflexivity.
Defined.

(** C2, as stated, fails.  The scan cuts [<think>x</think>] out of the
    text below and joins what stood on both sides of it into a section
    of its own, which only a second pass removes. *)
Lemma strip_thinking_not_idempotent :
  let x := lit "<think<think>x</think>>a</think>" in
  strip_thinking x = lit "<think>a</think>"
  /\ strip_thinking (strip_thinking x) = lit ""
  /\ strip_thinking (strip_thinking x) <> strip_thinking x.
Proof.
  intros x. split; [reflexivity|]. split; [reflexivity|].
  vm_compute. discriminate.
Qed.

(** C2, amended.  A second pass changes nothing exactly when the first
    pass left no delimited section behind; in particular it changes
    nothing on a text that had no section to begin with. *)
Theorem strip_thinking_idempotent_iff x :
  (strip_thinking (strip_thinking x) = strip_thinking x
   <-> has_section (strip_thinking x) = false)
  /\ (has_section x = false ->
      strip_thinking (strip_thinking x) = strip_thinking x).
Proof.
  assert (Hfix : forall y, has_section (strip_thinking y) = false ->
                           strip_thinking (strip_thinking y) = strip_thinking y).
  { intros y H. unfold strip_thinking at 1.
    rewrite re_sub_section_free by (apply has_section_false, H).
    apply strip_idem. }
  split; [split|].
  - intros H. destruct (has_section (strip_thinking x)) eqn:E; [|reflexivity].
    exfalso. apply has_section_shrinks in E.
    pose proof (strip_length (re_sub (strip_thinking x))) as Hlen.
    unfold strip_thinking at 1 in H. rewrite H in Hlen. lia.
  - apply Hfix.
  - intros H. apply Hfix.
    destruct (has_section (strip_thinking x)) eqn:E; [|reflexivity].
    exfalso. apply has_section_true in E. apply E.
    unfold strip_thinking.
    rewrite re_sub_section_free by (apply has_section_false, H).
    apply strip_no_new_section, has_section_false, H.
Qed.

Lemma strip_thinking_idempotent_iff_witness :
  let x := lit "  true " in
  let y := lit " <think>x</think> true " in
  has_section x = false
  /\ strip_thinking (strip_thinking x) = strip_thinking x
  /\ has_section (strip_thinking y) = false
  /\ strip_thinking (strip_thinking y) = strip_thinking y.
Proof.
  intros x y.
  split; [reflexivity|].
  split; [exact (proj2 (strip_thinking_idempotent_iff x) eq_refl)|].
  split; [reflexivity|].
  exact (proj2 (proj1 (strip_thinking_idempotent_iff y)) eq_refl).
Defined.

(** ** Reading traces *)

Lemma http_calls_app t1 t2 :
  http_calls (t1 ++ t2) = http_calls t1 ++ http_calls t2.
Proof.
  induction t1 as [|[] t1 IH]; simpl; try exact IH.
  - reflexivity.
  - f_equal. exact IH.
Qed.

Lemma answers_of_app t1 t2 :
  answers_of (t1 ++ t2) = answers_of t1 ++ answers_of t2.
Proof.
  induction t1 as [|[| | | |lvl []] t1 IH]; simpl; try exact IH.
  - reflexivity.
  - f_equal. exact IH.
Qed.

Lemma llm_events_app t1 t2 :
  llm_events (t1 ++ t2) = llm_events t1 ++ llm_events t2.
Proof. apply List.filter_app. Qed.

Lemma str_eqb_eq a b : str_eqb a b = true <-> a = b.
Proof.
  revert b. induction a as [|x a IH]; intros [|y b]; simpl;
    try (split; [discriminate | discriminate]); [tauto|].
  rewrite andb_true_iff, N.eqb_eq, IH. split.
  - intros [-> ->]. reflexivity.
  - intros [= -> ->]. auto.
Qed.

(** ** Running the effects *)

Section EffectLaws.

Context {Env : Type}.
Implicit Types w : World Env.

Lemma bind_run {A B} (m : M Env A) (k : A -> M Env B) w :
  bind m k w = match m w with
               | (Ok a, w') => k a w'
               | (Raise e, w') => (Raise e, w')
               end.
Proof. reflexivity. Qed.

Lemma ret_run {A} (a : A) w : ret a w = (Ok a, w).
Proof. reflexivity. Qed.

Lemma lift_run {A} (r : result A) w : lift r w = (r, w).
Proof. reflexivity. Qed.

Lemma log_run lvl r w : log lvl r w = (Ok tt, recorded w (EvLog lvl r)).
Proof. reflexivity. Qed.

Lemma read_run p w : read p w = (Ok (heap w p), w).
Proof. reflexivity. Qed.

Lemma call_run {A} ev (f : Env -> result A * Env) w :
  call ev f w = (fst (f (env w)), with_env (recorded w ev) (snd (f (env w)))).
Proof. unfold call. simpl. destruct (f (env w)); reflexivity. Qed.

Lemma try_except_run {A} (m : M Env A) h w :
  try_except m h w = match m w with
                     | (Ok a, w') => (Ok a, w')
                     | (Raise e, w') => h e w'
                     end.
Proof. reflexivity. Qed.

Lemma heap_recorded w ev : heap (recorded w ev) = heap w.
Proof. reflexivity. Qed.

Lemma trace_recorded w ev : trace (recorded w ev) = trace w ++ [ev].
Proof. reflexivity. Qed.

Lemma env_recorded w ev : env (recorded w ev) = env w.
Proof. reflexivity. Qed.

Lemma heap_with_env w e : heap (with_env w e) = heap w.
Proof. reflexivity. Qed.

Lemma trace_with_env w e : trace (with_env w e) = trace w.
Proof. reflexivity. Qed.

Lemma env_with_env w e : env (with_env w e) = e.
Proof. reflexivity. Qed.

End EffectLaws.

Create Rewrite HintDb world.
#[global] Hint Rewrite @heap_recorded @trace_recorded @env_recorded
  @heap_with_env @trace_with_env @env_with_env
  http_calls_app answers_of_app llm_events_app : world.

(** One statement of a run: the bind, then the operation it starts
    with. *)
Ltac run_step :=
  rewrite bind_run;
  rewrite ?log_run, ?lift_run, ?ret_run, ?read_run, ?call_run;
  cbv beta iota.

(** ** The LLM service *)

Section ServiceProperties.

Context {Env Keypair : Type} `{C : Collaborators Env Keypair}.
Local Open Scope run_scope.

Lemma call_model_run self prompt model mt t p (k : option Keypair) w :
  exists req,
    req_method req = lit "POST" /\ req_url req = llm_url
    /\ request_model req = Ok (PyStr model)
    /\ forall r w', _call_model self prompt model mt t p k w = (r, w') ->
       r = match fst (async_http_request_with_retry req (env w)) with
           | Ok data => first_choice_content data
           | Raise e => Raise e
           end
       /\ env w' = snd (async_http_request_with_retry req (env w))
       /\ heap w' = heap w
       /\ instance w' = instance w
       /\ http_calls (trace w') = http_calls (trace w) ++ [req]
       /\ answers_of (trace w')
          = answers_of (trace w) ++ match r with Ok v => [v] | Raise _ => [] end.
Proof.
  unfold _call_model.
  match goal with |- context [call (EvHttp ?r)] => set (req := r) end.
  exists req. repeat split.
  all: revert H; run_step.
  all: destruct (async_http_request_with_retry req (env w)) as [[data|e] e'];
    simpl fst; simpl snd; cbv beta iota.
  all: try (intros [= <- <-]; autorewrite with world; simpl;
            rewrite ?app_nil_r; reflexivity).
  all: do 3 run_step.
  all: unfold first_choice_content.
  all: run_step;
    destruct (getitem_key data _) as [choices|e1]; cbv beta iota;
    [run_step;
     destruct (getitem_0 choices) as [choice|e2]; cbv beta iota;
     [run_step;
      destruct (getitem_key choice _) as [message|e3]; cbv beta iota;
      [run_step;
       destruct (getitem_key message _) as [llm_response|e4]; cbv beta iota;
       [run_step|]|]|]|].
  all: intros [= <- <-]; autorewrite with world; simpl;
    rewrite ?app_nil_r, <- ?app_assoc; reflexivity.
Qed.

Lemma get_instance_run (name : option str) (w : World Env) :
  exists i w',
    get_instance name w = (Ok i, w')
    /\ env w' = env w /\ heap w' = heap w
    /\ http_calls (trace w') = http_calls (trace w)
    /\ answers_of (trace w') = answers_of (trace w)
    /\ instance w' = Some i
    /\ (instance w = None -> model_name i = or_str name default_model)
    /\ (forall j, instance w = Some j -> i = j /\ w' = w).
Proof.
  unfold get_instance. destruct (instance w) as [j|] eqn:E.
  - exists j, w. repeat split; congruence.
  - unfold _initialize. do 2 run_step. unfold set_instance. run_step.
    eexists _, _. split; [reflexivity|].
    simpl. autorewrite with world. simpl. rewrite ?app_nil_r.
    repeat split; discriminate.
Qed.

Lemma has_field_getitem d k v : has_field d k v -> getitem_key d k = Ok v.
Proof.
  intros (before & after & -> & Hno). simpl.
  induction before as [|[k' v'] before IH]; simpl.
  - rewrite (proj2 (str_eqb_eq k k) eq_refl). reflexivity.
  - destruct (str_eqb k k') eqn:E.
    + apply str_eqb_eq in E. exfalso. apply Hno. left. symmetry. exact E.
    + apply IH. intros H. apply Hno. right. exact H.
Qed.

Lemma first_choice_has_content_read data c :
  first_choice_has_content data c -> first_choice_content data = Ok c.
Proof.
  intros (choice & others & message & Hc & Hm & Hk).
  unfold first_choice_content.
  rewrite (has_field_getitem _ _ _ Hc). simpl.
  rewrite (has_field_getitem _ _ _ Hm).
  exact (has_field_getitem _ _ _ Hk).
Qed.

(** C9.  [query] hands one request to the HTTP retry client, whatever
    comes of it: a POST to the endpoint, naming the model it was given
    or, when none was given, the model of the service (which is
    [Qwen/Qwen3-8B] for a service initialized without a name).  What the
    client returns decides the result: from a body whose first choice has
    a message with a content, that content, whatever the later choices
    are; from a body of another shape, the error of reading it; from a
    failure, the same failure. *)
Theorem query_returns_first_choice_content
    self prompt model mt t p (k : option Keypair) w :
  let out := query self prompt model mt t p k w in
  exists req,
    http_calls (trace (snd out)) = http_calls (trace w) ++ [req]
    /\ req_method req = lit "POST" /\ req_url req = llm_url
    /\ request_model req = Ok (PyStr (or_str model (model_name self)))
    /\ or_str None (model_name self) = model_name self
    /\ or_str None default_model = lit "Qwen/Qwen3-8B"
    /\ fst out = match fst (async_http_request_with_retry req (env w)) with
                 | Ok data => first_choice_content data
                 | Raise e => Raise e
                 end
    /\ env (snd out) = snd (async_http_request_with_retry req (env w))
    /\ (forall data c,
          fst (async_http_request_with_retry req (env w)) = Ok data ->
          first_choice_has_content data c ->
          fst out = Ok c)
    /\ (forall e,
          fst (async_http_request_with_retry req (env w)) = Raise e ->
          fst out = Raise e).
Proof.
  intros out. subst out. unfold query.
  destruct (call_model_run self prompt (or_str model (model_name self))
              mt t p k w) as (req & Hm & Hu & Hmodel & Hrun).
  exists req.
  destruct (_call_model _ _ _ _ _ _ _ w) as [r w'] eqn:E.
  destruct (Hrun _ _ eq_refl) as (Hr & He & _ & _ & Hc & _).
  simpl. repeat split; try assumption.
  - intros data c Hd Hshape. rewrite Hr, Hd.
    apply first_choice_has_content_read, Hshape.
  - intros e Hd. rewrite Hr, Hd. reflexivity.
Qed.

Lemma query_llm_run prompt model mt t p (k : option Keypair) w r w' :
  query_llm prompt model mt t p k w = (r, w') ->
  heap w' = heap w
  /\ answers_of (trace w')
     = answers_of (trace w) ++ match r with Ok v => [v] | Raise _ => [] end.
Proof.
  unfold query_llm. rewrite bind_run.
  assert (Hk : exists r0 w0,
             (if negb (keypair_is_true k)
              then k0 <- call EvGetWallet get_wallet_hotkey;; ret (Some k0)
              else ret k) w = (r0, w0)
             /\ heap w0 = heap w
             /\ answers_of (trace w0) = answers_of (trace w)).
  { destruct (keypair_is_true k); cbn [negb].
    - eexists _, _. split; [reflexivity|]. split; reflexivity.
    - run_step. destruct (get_wallet_hotkey (env w)) as [[k0|e] e0];
        simpl fst; simpl snd; cbv beta iota;
        eexists _, _; (split; [reflexivity|]);
        autorewrite with world; simpl; rewrite ?app_nil_r; split; reflexivity. }
  destruct Hk as (r0 & w0 & -> & Hh0 & Ha0).
  destruct r0 as [k1|e]; cbv beta iota.
  2: { intros [= <- <-]. rewrite app_nil_r. split; assumption. }
  rewrite bind_run.
  destruct (get_instance_run None w0)
    as (i & w1 & -> & _ & Hh1 & _ & Ha1 & _).
  cbv beta iota. unfold query. intros Hq.
  destruct (call_model_run i prompt (or_str model (model_name i)) mt t p k1 w1)
    as (req & _ & _ & _ & Hrun).
  destruct (Hrun _ _ Hq) as (_ & _ & Hh2 & _ & _ & Ha2).
  split; congruence.
Qed.

End ServiceProperties.

Lemma query_returns_first_choice_content_witness :
  let C := scripted (Ok abc_prompts) (Ok (a_quoted_post "nuance")) in
  let choice (index : Z) (text : string) :=
    PyDict [ (lit "index", PyInt index);
             (lit "message",
              PyDict [ (lit "role", PyStr (lit "assistant"));
                       (lit "content", PyStr (lit text)) ]);
             (lit "finish_reason", PyStr (lit "stop")) ] in
  let body :=
    PyDict [ (lit "id", PyStr (lit "cmpl-1"));
             (lit "choices",
              PyList [ choice 0%Z "first"; choice 1%Z "second" ]);
             (lit "content", PyStr (lit "outer")) ] in
  let self := {| model_name := lit "my-model" |} in
  let query_on answers :=
    query (C := C) self (lit "hi") None 1024 0%float 0.5%float None
      (a_world answers (a_post TWITTER ∅)) in
  let failure := Exn "ClientError" (lit "no more retries") in
  first_choice_has_content body (PyStr (lit "first"))
  /\ fst (query_on [Ok body]) = Ok (PyStr (lit "first"))
  /\ List.map request_model (http_calls (trace (snd (query_on [Ok body]))))
     = [Ok (PyStr (lit "my-model"))]
  /\ fst (query_on [Raise failure]) = Raise failure
  /\ fst (query_on []) = Raise failure.
Proof.
  intros C choice body self query_on failure.
  assert (Hshape : first_choice_has_content body (PyStr (lit "first"))).
  { exists (choice 0%Z "first"), [choice 1%Z "second"],
      (PyDict [ (lit "role", PyStr (lit "assistant"));
                (lit "content", PyStr (lit "first")) ]).
    split; [|split].
    - exists [ (lit "id", PyStr (lit "cmpl-1")) ],
        [ (lit "content", PyStr (lit "outer")) ].
      split; [reflexivity|].
      intros [H|[]]. vm_compute in H. discriminate H.
    - exists [ (lit "index", PyInt 0%Z) ],
        [ (lit "finish_reason", PyStr (lit "stop")) ].
      split; [reflexivity|].
      intros [H|[]]. vm_compute in H. discriminate H.
    - exists [ (lit "role", PyStr (lit "assistant")) ], [].
      split; [reflexivity|].
      intros [H|[]]. vm_compute in H. discriminate H. }
  split; [exact Hshape|].
  pose proof (query_returns_first_choice_content (C := C) self (lit "hi")
                None 1024 0%float 0.5%float None
                (a_world [Ok body] (a_post TWITTER ∅))) as Hbody.
  pose proof (query_returns_first_choice_content (C := C) self (lit "hi")
                None 1024 0%float 0.5%float None
                (a_world [Raise failure] (a_post TWITTER ∅))) as Hraise.
  pose proof (query_returns_first_choice_content (C := C) self (lit "hi")
                None 1024 0%float 0.5%float None
                (a_world [] (a_post TWITTER ∅))) as Hnone.
  cbv zeta in Hbody, Hraise, Hnone.
  destruct Hbody
    as (req & Hcalls & _ & _ & Hmodel & _ & _ & _ & _ & Hok & _).
  destruct Hraise as (req1 & _ & _ & _ & _ & _ & _ & _ & _ & _ & Hfail1).
  destruct Hnone as (req2 & _ & _ & _ & _ & _ & _ & _ & _ & _ & Hfail2).
  split; [exact (Hok body (PyStr (lit "first")) eq_refl Hshape)|].
  split.
  - unfold query_on. rewrite Hcalls. simpl. rewrite Hmodel. reflexivity.
  - split; [exact (Hfail1 failure eq_refl)|exact (Hfail2 failure eq_refl)].
Defined.

(** ** The topic tagger *)

Section TaggerProperties.

Context {Env Keypair : Type} `{C : Collaborators Env Keypair}.
Local Open Scope run_scope.

(** One turn of the loop, when the template formats and the query
    returns a string. *)
Lemma check_topics_cons pid text topic tmpl rest acc w prompt raw w1 :
  str_format tmpl text = Ok prompt ->
  query_llm prompt None 1024 0%float 0.5%float None w = (Ok (PyStr raw), w1) ->
  check_topics pid text ((topic, tmpl) :: rest) acc w
  = if is_relevant (strip_thinking raw)
    then check_topics pid text rest (acc ++ [topic])
           (recorded w1 (EvLog INFO (LogIsAbout pid topic)))
    else check_topics pid text rest acc
           (recorded w1 (EvLog DEBUG (LogNotAbout pid topic))).
Proof.
  intros Hf Hq. cbn [check_topics]. rewrite Hf.
  run_step. run_step. rewrite Hq. cbv beta iota.
  run_step. unfold strip_thinking_of. cbv beta iota.
  destruct (is_relevant (strip_thinking raw)); run_step; reflexivity.
Qed.

(** The whole loop. *)
Lemma check_topics_run pid text items : forall acc w r w',
  check_topics pid text items acc w = (r, w') ->
  heap w' = heap w
  /\ match r with
     | Ok ts =>
         exists answers,
           length answers = length items
           /\ answers_of (trace w')
              = answers_of (trace w) ++ List.map PyStr answers
           /\ ts = acc ++ relevant_topics items answers
     | Raise _ => True
     end.
Proof.
  induction items as [|[topic tmpl] rest IH]; intros acc w r w'.
  - cbn [check_topics]. rewrite ret_run. intros [= <- <-].
    split; [reflexivity|]. exists []. simpl. rewrite !app_nil_r. auto.
  - cbn [check_topics]. run_step.
    destruct (str_format tmpl text) as [prompt|e]; cbv beta iota.
    2: { intros [= <- <-]. auto. }
    run_step.
    destruct (query_llm prompt None 1024 0%float 0.5%float None w)
      as [[answer|e] w1] eqn:Hq; cbv beta iota.
    2: { intros [= <- <-]. apply query_llm_run in Hq. tauto. }
    apply query_llm_run in Hq as [Hh1 Ha1].
    run_step.
    assert (Hbad : forall e, (Raise e, w1) = (r, w') ->
              heap w' = heap w /\ match r with
                                  | Ok _ => False
                                  | Raise _ => True end).
    { intros e [= <- <-]. auto. }
    destruct answer as [| | | |raw| |]; cbn [strip_thinking_of]; cbv beta iota;
      try (intros H; apply Hbad in H as [? H]; split; [assumption|];
           destruct r; [contradiction | exact I]).
    destruct (is_relevant (strip_thinking raw)) eqn:Hrel; run_step;
      intros H; apply IH in H as [Hh2 H]; autorewrite with world in *;
      (split; [congruence|]); destruct r as [ts|]; [|exact I| |exact I];
      destruct H as (answers & Hlen & Hans & ->);
      exists (raw :: answers); simpl in *; rewrite ?app_nil_r in *;
      rewrite Hrel, Hans, Ha1, <- ?app_assoc; simpl; auto.
Qed.

(** The special case never raises, and appends the sentinel exactly
    when the quote relationship holds. *)
Lemma check_nuance_sharing_run l pid acc w :
  exists w',
    check_nuance_sharing l pid acc w
    = (Ok (acc ++ if quotes_nuance (heap w l) (env w)
                  then [nuance_sharing] else []), w')
    /\ heap w' = heap w
    /\ llm_events (trace w') = llm_events (trace w)
    /\ answers_of (trace w') = answers_of (trace w).
Proof.
  unfold check_nuance_sharing, quotes_nuance. run_step.
  destruct (platform_type (heap w l)); cbn [PlatformType_eqb]; cbv beta iota.
  2: { rewrite ret_run, app_nil_r. eauto. }
  rewrite try_except_run. run_step.
  destruct (truthy (dict_get _ (lit "is_quote_tweet") _)); cbn [andb].
  2: { run_step. rewrite app_nil_r. eexists. split; [reflexivity|].
       autorewrite with world. simpl. rewrite !app_nil_r. auto. }
  destruct (truthy (dict_get _ (lit "quoted_status_id") _)); cbn [andb].
  2: { run_step. rewrite app_nil_r. eexists. split; [reflexivity|].
       autorewrite with world. simpl. rewrite !app_nil_r. auto. }
  do 2 run_step. autorewrite with world.
  destruct (get_post _ (env w)) as [[quoted_post|ex] e'];
    simpl fst; simpl snd; cbv beta iota.
  - destruct (str_eqb (account_id quoted_post) NUANCE_SOCIAL_ACCOUNT_ID);
      run_step; rewrite ?app_nil_r; (eexists; split; [reflexivity|]);
      autorewrite with world; simpl; rewrite !app_nil_r; auto.
  - run_step. rewrite app_nil_r. eexists. split; [reflexivity|].
    autorewrite with world. simpl. rewrite !app_nil_r. auto.
Qed.

(** [process], stage by stage: the fetch of the mapping, the loop, the
    special case, the assignment. *)
Lemma process_stages l w :
  let p := heap w l in
  let w0 := with_env (recorded w EvGetTopicPrompts)
                     (snd (get_topic_prompts (env w))) in
  exists w',
    match fst (get_topic_prompts (env w)) with
    | Raise e =>
        process l w = (Ok (error_result l e), w')
        /\ heap w' = heap w
        /\ llm_events (trace w') = llm_events (trace w)
    | Ok items =>
        match check_topics (post_id p) (content p) items [] w0 with
        | (Raise e, w1) =>
            process l w = (Ok (error_result l e), w') /\ heap w' = heap w
        | (Ok ts, w1) =>
            let ts' := ts ++ if quotes_nuance p (env w1)
                             then [nuance_sharing] else [] in
            process l w = (Ok (accepted_result l ts'), w')
            /\ heap w' = <[l := set_topics p ts']> (heap w)
            /\ llm_events (trace w') = llm_events (trace w1)
            /\ answers_of (trace w') = answers_of (trace w1)
        end
    end.
Proof.
  intros p w0. unfold process. rewrite try_except_run.
  do 2 run_step. fold p. fold w0.
  destruct (fst (get_topic_prompts (env w))) as [items|e]; cbv beta iota.
  2: { do 2 run_step. eexists. split; [reflexivity|].
       subst w0. autorewrite with world. simpl. rewrite !app_nil_r. auto. }
  run_step.
  destruct (check_topics (post_id p) (content p) items [] w0)
    as [[ts|e] w1] eqn:Hloop; cbv beta iota.
  2: { do 2 run_step. apply check_topics_run in Hloop as [Hh _].
       eexists. split; [reflexivity|]. autorewrite with world.
       rewrite Hh. reflexivity. }
  apply check_topics_run in Hloop as [Hh _].
  assert (Hh1 : heap w1 = heap w) by (rewrite Hh; reflexivity).
  run_step.
  destruct (check_nuance_sharing_run l (post_id p) ts w1)
    as (w2 & -> & Hh2 & Hc2 & Ha2).
  cbv beta iota. rewrite Hh1. fold p.
  unfold assign_topics. do 2 run_step.
  eexists. split; [reflexivity|].
  autorewrite with world. simpl. rewrite !app_nil_r.
  rewrite Hh2, Hh1. auto.
Qed.

Lemma lookup_fails_no_match p e : lookup_fails p e -> quotes_nuance p e = false.
Proof.
  intros [Hp H]. unfold quotes_nuance. rewrite Hp.
  destruct H as [H | [H | (_ & _ & ex & e' & H)]].
  - unfold dict_get at 1. rewrite H. reflexivity.
  - unfold dict_get at 2. rewrite H. apply andb_false_iff. left.
    apply andb_false_r.
  - rewrite H. apply andb_false_r.
Qed.

(** C1.  A topic of the mapping is added to the list exactly when the
    sanitized answer, trimmed and put in lower case, is the string
    [true].  Any other answer leaves the list as it is and the loop goes
    on with the next pair: no verdict is an error.  [True], [ true ] and
    [TRUE] are relevant; [false], [maybe] and the empty string are not. *)
Theorem topic_added_iff_answer_is_true :
  (forall llm_response,
      is_relevant llm_response = true
      <-> lower (strip llm_response) = lit "true")
  /\ (forall pid text topic tmpl rest acc w prompt raw w1,
        str_format tmpl text = Ok prompt ->
        query_llm prompt None 1024 0%float 0.5%float None w
        = (Ok (PyStr raw), w1) ->
        check_topics pid text ((topic, tmpl) :: rest) acc w
        = if is_relevant (strip_thinking raw)
          then check_topics pid text rest (acc ++ [topic])
                 (recorded w1 (EvLog INFO (LogIsAbout pid topic)))
          else check_topics pid text rest acc
                 (recorded w1 (EvLog DEBUG (LogNotAbout pid topic))))
  /\ (forall pid text items acc w ts w',
        check_topics pid text items acc w = (Ok ts, w') ->
        exists answers,
          length answers = length items
          /\ answers_of (trace w')
             = answers_of (trace w) ++ List.map PyStr answers
          /\ ts = acc ++ relevant_topics items answers)
  /\ is_relevant (strip_thinking (lit "True")) = true
  /\ is_relevant (strip_thinking (lit " true ")) = true
  /\ is_relevant (strip_thinking (lit "TRUE")) = true
  /\ is_relevant (strip_thinking (lit "false")) = false
  /\ is_relevant (strip_thinking (lit "maybe")) = false
  /\ is_relevant (strip_thinking (lit "")) = false
  /\ is_relevant (lit " true ") = true.
Proof.
  split; [|split; [|split]].
  - intros r. apply str_eqb_eq.
  - intros. eapply check_topics_cons; eassumption.
  - intros pid text items acc w ts w' H.
    apply check_topics_run in H as [_ H]. exact H.
  - repeat split; reflexivity.
Qed.

(** C3.  When [process] accepts, the topics it assigns are the topics
    of the mapping whose answers were relevant, in the mapping's order,
    and after them the sentinel when, and only when, the quote
    relationship holds.  With three topics of which the second is not
    relevant, the list is the first and the third, in that order. *)
Theorem topics_follow_mapping_order :
  (forall l w r w',
      process l w = (Ok r, w') ->
      status r = ACCEPTED ->
      exists items e1 answers w1,
        get_topic_prompts (env w) = (Ok items, e1)
        /\ check_topics (post_id (heap w l)) (content (heap w l)) items []
             (with_env (recorded w EvGetTopicPrompts) e1)
           = (Ok (relevant_topics items answers), w1)
        /\ length answers = length items
        /\ answers_of (trace w')
           = answers_of (trace w) ++ List.map PyStr answers
        /\ topics (heap w' l)
           = relevant_topics items answers
             ++ (if quotes_nuance (heap w l) (env w1)
                 then [nuance_sharing] else [])
        /\ r = accepted_result l (topics (heap w' l)))
  /\ (forall a b c ta tb tc ra rb rc,
        is_relevant (strip_thinking ra) = true ->
        is_relevant (strip_thinking rb) = false ->
        is_relevant (strip_thinking rc) = true ->
        relevant_topics [(a, ta); (b, tb); (c, tc)] [ra; rb; rc] = [a; c]).
Proof.
  split.
  - intros l w r w' Hp Hs.
    destruct (process_stages l w) as (w'' & H). cbv zeta in H.
    destruct (get_topic_prompts (env w)) as [[items|e] e1] eqn:Hg;
      simpl fst in H; simpl snd in H; cbv beta iota in H.
    2: { destruct H as (H & _). rewrite H in Hp.
         injection Hp as <- <-. discriminate. }
    destruct (check_topics (post_id (heap w l)) (content (heap w l)) items
                [] _) as [[ts|e] w1] eqn:Hloop.
    2: { destruct H as (H & _). rewrite H in Hp.
         injection Hp as <- <-. discriminate. }
    destruct H as (H & Hh & _ & Ha). rewrite H in Hp.
    injection Hp as <- <-.
    pose proof (check_topics_run _ _ _ _ _ _ _ Hloop)
      as (_ & answers & Hlen & Hans & ->).
    autorewrite with world in Hans. simpl in Hans.
    rewrite app_nil_r in Hans.
    exists items, e1, answers, w1. rewrite Hh, fn_lookup_insert. simpl.
    repeat split; try assumption; try reflexivity. congruence.
  - intros a b c ta tb tc ra rb rc Ha Hb Hc. simpl.
    rewrite Ha, Hb, Hc. reflexivity.
Qed.

(** C4.  When the lookup of the quoted post raises, or the post's data
    lacks what the special case reads, [process] still accepts: the
    topics it assigns are the loop's topics, nothing appended. *)
Theorem special_case_failure_is_contained l w items e1 ts w1 :
  get_topic_prompts (env w) = (Ok items, e1) ->
  check_topics (post_id (heap w l)) (content (heap w l)) items []
    (with_env (recorded w EvGetTopicPrompts) e1) = (Ok ts, w1) ->
  lookup_fails (heap w l) (env w1) ->
  exists w',
    process l w = (Ok (accepted_result l ts), w')
    /\ status (accepted_result l ts) = ACCEPTED
    /\ topics (heap w' l) = ts.
Proof.
  intros Hg Hloop Hfail.
  destruct (process_stages l w) as (w' & H). cbv zeta in H.
  rewrite Hg in H. simpl fst in H; simpl snd in H; cbv beta iota in H.
  rewrite Hloop in H.
  rewrite (lookup_fails_no_match _ _ Hfail), app_nil_r in H.
  destruct H as (H & Hh & _). exists w'.
  rewrite Hh, fn_lookup_insert. auto.
Qed.

(** C5.  [process] never raises.  An exception that reaches its top
    level, be it a failure to fetch the mapping or one out of the loop
    over the topics, becomes one result with status ERROR, the post it
    was given, left as it was, and the reason "Error tagging topics: "
    followed by the exception's text. *)
Theorem exceptions_become_error_results l w :
  (exists r w',
      process l w = (Ok r, w')
      /\ (status r = ERROR ->
          exists e, r = error_result l e /\ heap w' = heap w))
  /\ (forall e e1,
        get_topic_prompts (env w) = (Raise e, e1) ->
        exists w',
          process l w = (Ok (error_result l e), w')
          /\ heap w' = heap w)
  /\ (forall items e1 e w1,
        get_topic_prompts (env w) = (Ok items, e1) ->
        check_topics (post_id (heap w l)) (content (heap w l)) items []
          (with_env (recorded w EvGetTopicPrompts) e1) = (Raise e, w1) ->
        exists w',
          process l w = (Ok (error_result l e), w')
          /\ heap w' = heap w)
  /\ (forall e,
        status (error_result l e) = ERROR
        /\ output (error_result l e) = l
        /\ reason (error_result l e) = Some (error_prefix ++ exn_str e)
        /\ error_prefix ++ exn_str e <> []).
Proof.
  destruct (process_stages l w) as (w' & H). cbv zeta in H.
  split; [|split; [|split]].
  - destruct (fst (get_topic_prompts (env w))) as [items|e].
    + destruct (check_topics (post_id (heap w l)) (content (heap w l)) items
                  [] _) as [[ts|e] w1].
      * destruct H as (H & _). eexists _, _. split; [exact H|].
        discriminate.
      * destruct H as (H & Hh). eexists _, _. split; [exact H|]. eauto.
    + destruct H as (H & Hh & _). eexists _, _. split; [exact H|]. eauto.
  - intros e e1 Hg. rewrite Hg in H.
    simpl fst in H; simpl snd in H; cbv beta iota in H.
    destruct H as (H & Hh & _). eauto.
  - intros items e1 e w1 Hg Hloop. rewrite Hg in H.
    simpl fst in H; simpl snd in H; cbv beta iota in H.
    rewrite Hloop in H. eauto.
  - intros e. repeat split. discriminate.
Qed.

(** C8.  With an empty mapping and no quote relationship, [process]
    calls the LLM not once and accepts with an empty topic list.  More
    generally, finding no topic is an accepted result, never an error. *)
Theorem empty_mapping_is_accepted :
  (forall l w e1,
      get_topic_prompts (env w) = (Ok [], e1) ->
      quotes_nuance (heap w l) e1 = false ->
      exists w',
        process l w = (Ok (accepted_result l []), w')
        /\ status (accepted_result l []) = ACCEPTED
        /\ topics (heap w' l) = []
        /\ details (accepted_result l [])
           = Some {| details_topics := []; details_topic_count := 0 |}
        /\ llm_events (trace w') = llm_events (trace w))
  /\ (forall l w items e1 w1,
        get_topic_prompts (env w) = (Ok items, e1) ->
        check_topics (post_id (heap w l)) (content (heap w l)) items []
          (with_env (recorded w EvGetTopicPrompts) e1) = (Ok [], w1) ->
        quotes_nuance (heap w l) (env w1) = false ->
        exists w',
          process l w = (Ok (accepted_result l []), w')
          /\ topics (heap w' l) = []).
Proof.
  split.
  - intros l w e1 Hg Hq.
    destruct (process_stages l w) as (w' & H). cbv zeta in H.
    rewrite Hg in H. simpl fst in H; simpl snd in H; cbv beta iota in H.
    cbn [check_topics] in H. rewrite ret_run in H.
    autorewrite with world in H. rewrite Hq in H. simpl in H.
    destruct H as (H & Hh & Hl & _). exists w'.
    rewrite Hh, fn_lookup_insert, Hl. autorewrite with world. simpl.
    rewrite app_nil_r. auto.
  - intros l w items e1 w1 Hg Hloop Hq.
    destruct (process_stages l w) as (w' & H). cbv zeta in H.
    rewrite Hg in H. simpl fst in H; simpl snd in H; cbv beta iota in H.
    rewrite Hloop, Hq in H. simpl in H.
    destruct H as (H & Hh & _). exists w'.
    rewrite Hh, fn_lookup_insert. auto.
Qed.

(** C10.  A result with status ERROR comes with the post's topics,
    and the whole post, as they were at entry; the topics are assigned
    only on the way to an accepted result, where they are the reported
    ones. *)
Theorem error_leaves_topics_unchanged l w r w' :
  process l w = (Ok r, w') ->
  (status r = ERROR ->
   topics (heap w' l) = topics (heap w l) /\ heap w' = heap w)
  /\ (status r = ACCEPTED ->
      exists ts, r = accepted_result l ts
                 /\ heap w' = <[l := set_topics (heap w l) ts]> (heap w)).
Proof.
  intros Hp.
  destruct (process_stages l w) as (w'' & H). cbv zeta in H.
  destruct (fst (get_topic_prompts (env w))) as [items|e].
  - destruct (check_topics (post_id (heap w l)) (content (heap w l)) items
                [] _) as [[ts|e] w1].
    + destruct H as (H & Hh & _). rewrite H in Hp. injection Hp as <- <-.
      split; [discriminate|]. eauto.
    + destruct H as (H & Hh). rewrite H in Hp. injection Hp as <- <-.
      split; [|discriminate]. intros _. rewrite Hh. auto.
  - destruct H as (H & Hh & _). rewrite H in Hp. injection Hp as <- <-.
    split; [|discriminate]. intros _. rewrite Hh. auto.
Qed.

End TaggerProperties.

(** ** The theorems on scripted runs *)

Lemma topic_added_iff_answer_is_true_witness :
  let C := scripted (Ok abc_prompts) (Raise (Exn "NotFound" (lit "gone"))) in
  let w := a_world [completion "<think>hm</think> True"] (a_post TWITTER ∅) in
  let prompt := lit "Is this about A? hello world" in
  let raw := lit "<think>hm</think> True" in
  let w1 := snd (query_llm (C := C) prompt None 1024 0%float 0.5%float None w) in
  str_format (lit "Is this about A? {tweet_text}") (lit "hello world") = Ok prompt
  /\ query_llm prompt None 1024 0%float 0.5%float None w = (Ok (PyStr raw), w1)
  /\ is_relevant (strip_thinking raw) = true
  /\ check_topics (lit "p1") (lit "hello world")
       [(lit "A", lit "Is this about A? {tweet_text}")] [] w
     = check_topics (lit "p1") (lit "hello world") [] [lit "A"]
         (recorded w1 (EvLog INFO (LogIsAbout (lit "p1") (lit "A")))).
Proof.
  intros C w prompt raw w1.
  assert (Hf : str_format (lit "Is this about A? {tweet_text}")
                 (lit "hello world") = Ok prompt)
    by (vm_compute; reflexivity).
  assert (Hq : query_llm prompt None 1024 0%float 0.5%float None w
               = (Ok (PyStr raw), w1))
    by (vm_compute; reflexivity).
  split; [exact Hf|]. split; [exact Hq|]. split; [reflexivity|].
  exact (proj1 (proj2 (topic_added_iff_answer_is_true (C := C)))
           (lit "p1") (lit "hello world") (lit "A") _ [] [] w prompt raw w1
           Hf Hq).
Defined.

Lemma topics_follow_mapping_order_witness :
  let C := scripted (Ok abc_prompts) (Ok (a_quoted_post "nuance")) in
  let w := a_world [completion "<think>hm</think> True"; completion "false";
                    completion " TRUE "]
                   (a_post TWITTER (quote_of "42")) in
  let r := accepted_result 0 [lit "A"; lit "C"; nuance_sharing] in
  let w' := snd (process (C := C) 0 w) in
  process 0 w = (Ok r, w')
  /\ status r = ACCEPTED
  /\ topics (heap w' 0) = [lit "A"; lit "C"; nuance_sharing]
  /\ exists items e1 answers w1,
      get_topic_prompts (env w) = (Ok items, e1)
      /\ check_topics (post_id (heap w 0)) (content (heap w 0)) items []
           (with_env (recorded w EvGetTopicPrompts) e1)
         = (Ok (relevant_topics items answers), w1)
      /\ length answers = length items
      /\ answers_of (trace w') = answers_of (trace w) ++ List.map PyStr answers
      /\ topics (heap w' 0)
         = relevant_topics items answers
           ++ (if quotes_nuance (heap w 0) (env w1) then [nuance_sharing] else [])
      /\ r = accepted_result 0 (topics (heap w' 0)).
Proof.
  intros C w r w'.
  assert (Hp : process 0 w = (Ok r, w')) by (vm_compute; reflexivity).
  split; [exact Hp|]. split; [reflexivity|].
  split; [vm_compute; reflexivity|].
  exact (proj1 (topics_follow_mapping_order (C := C)) 0 w r w' Hp eq_refl).
Defined.

Lemma special_case_failure_is_contained_witness :
  let C := scripted (Ok abc_prompts) (Raise (Exn "NotFound" (lit "gone"))) in
  let w := a_world [completion "true"; completion "false"; completion "true"]
                   (a_post TWITTER (quote_of "42")) in
  let w1 := snd (check_topics (C := C) (lit "p1") (lit "hello world")
                   abc_prompts []
                   (with_env (recorded w EvGetTopicPrompts) (env w))) in
  lookup_fails (heap w 0) (env w1)
  /\ exists w',
      process 0 w = (Ok (accepted_result 0 [lit "A"; lit "C"]), w')
      /\ status (accepted_result 0 [lit "A"; lit "C"]) = ACCEPTED
      /\ topics (heap w' 0) = [lit "A"; lit "C"].
Proof.
  intros C w w1.
  assert (Hfail : lookup_fails (heap w 0) (env w1)).
  { split; [reflexivity|]. right. right.
    split; [reflexivity|]. split; [reflexivity|].
    eexists _, _. reflexivity. }
  split; [exact Hfail|].
  apply (special_case_failure_is_contained (C := C) 0 w abc_prompts (env w)
           [lit "A"; lit "C"] w1).
  - reflexivity.
  - vm_compute. reflexivity.
  - exact Hfail.
Defined.

Lemma exceptions_become_error_results_witness :
  let boom := Exn "ConnectionError" (lit "store unreachable") in
  let C := scripted (Raise boom) (Ok (a_quoted_post "nuance")) in
  let w := a_world [] (a_post TWITTER (quote_of "42")) in
  get_topic_prompts (env w) = (Raise boom, env w)
  /\ exists w',
      process 0 w = (Ok (error_result 0 boom), w')
      /\ heap w' = heap w.
Proof.
  intros boom C w.
  split; [reflexivity|].
  exact (proj1 (proj2 (exceptions_become_error_results (C := C) 0 w))
           boom (env w) eq_refl).
Defined.

Lemma empty_mapping_is_accepted_witness :
  let C := scripted (Ok []) (Ok (a_quoted_post "nuance")) in
  let w := a_world [completion "true"] (a_post TWITTER ∅) in
  quotes_nuance (heap w 0) (env w) = false
  /\ exists w',
      process 0 w = (Ok (accepted_result 0 []), w')
      /\ status (accepted_result 0 []) = ACCEPTED
      /\ topics (heap w' 0) = []
      /\ details (accepted_result 0 [])
         = Some {| details_topics := []; details_topic_count := 0 |}
      /\ llm_events (trace w') = llm_events (trace w).
Proof.
  intros C w.
  assert (Hq : quotes_nuance (heap w 0) (env w) = false)
    by (vm_compute; reflexivity).
  split; [exact Hq|].
  exact (proj1 (empty_mapping_is_accepted (C := C)) 0 w (env w) eq_refl Hq).
Defined.

Lemma error_leaves_topics_unchanged_witness :
  let C := scripted (Ok abc_prompts) (Ok (a_quoted_post "nuance")) in
  let w := a_world [completion "true"] (a_post TWITTER (quote_of "42")) in
  let out := process (C := C) 0 w in
  let r := error_result 0 (Exn "ClientError" (lit "no more retries")) in
  out = (Ok r, snd out)
  /\ status r = ERROR
  /\ topics (heap (snd out) 0) = [lit "old"]
  /\ heap (snd out) = heap w.
Proof.
  intros C w out r.
  assert (Hp : process 0 w = (Ok r, snd out)) by (vm_compute; reflexivity).
  split; [exact Hp|]. split; [reflexivity|].
  destruct (proj1 (error_leaves_topics_unchanged (C := C) 0 w r (snd out) Hp)
              eq_refl) as [Ht Hh].
  split; [rewrite Ht; reflexivity | exact Hh].
Defined.

(** More runs: an answer that is not a string, and a template with a
    stray brace, end in the ERROR result; the first query of a process
    builds the service with the default model. *)

Example null_content_is_an_error :
  let C := scripted (Ok abc_prompts) (Ok (a_quoted_post "nuance")) in
  let message := PyDict [ (lit "content", PyNone) ] in
  let body :=
    Ok (PyDict [ (lit "choices",
                  PyList [ PyDict [ (lit "message", message) ] ]) ]) in
  let out := process (C := C) 0 (a_world [body] (a_post TWITTER ∅)) in
  fst out
  = Ok (error_result 0
          (Exn "TypeError"
               (lit "expected string or bytes-like object, got 'NoneType'")))
  /\ topics (heap (snd out) 0) = [lit "old"].
Proof. split; vm_compute; reflexivity. Qed.

Example stray_brace_is_an_error :
  let C := scripted (Ok [(lit "A", lit "About A {? {tweet_text}")])
                    (Ok (a_quoted_post "nuance")) in
  let out := process (C := C) 0 (a_world [completion "true"]
                                         (a_post TWITTER ∅)) in
  fst out
  = Ok (error_result 0
          (Exn "ValueError"
               (lit "Single brace encountered in format string")))
  /\ llm_events (trace (snd out)) = [].
Proof. split; vm_compute; reflexivity. Qed.

Example first_query_builds_the_service :
  let C := scripted (Ok abc_prompts) (Ok (a_quoted_post "nuance")) in
  let out := query_llm (C := C) (lit "hi") None 1024 0%float 0.5%float None
               (a_world [completion "hello"] (a_post TWITTER ∅)) in
  fst out = Ok (PyStr (lit "hello"))
  /\ instance (snd out) = Some {| model_name := lit "Qwen/Qwen3-8B" |}
  /\ List.map request_model (http_calls (trace (snd out)))
     = [Ok (PyStr (lit "Qwen/Qwen3-8B"))].
Proof. repeat split; vm_compute; reflexivity. Qed.

(** ** The singleton under concurrent callers *)

Module SingletonFacts.
Import Singleton.

Lemma lookup_move_same n c p s :
  callers s !! n = Some c ->
  move n c p s !! n = Some {| arg := arg c; at_ := p |}.
Proof.
  intros Hn. unfold move. apply list_lookup_insert_eq.
  eapply lookup_lt_Some, Hn.
Qed.

Lemma lookup_move n c p s m d :
  callers s !! n = Some c ->
  move n c p s !! m = Some d ->
  (m = n /\ d = {| arg := arg c; at_ := p |})
  \/ (m <> n /\ callers s !! m = Some d).
Proof.
  intros Hn. destruct (decide (m = n)) as [->|Hne].
  - rewrite (lookup_move_same _ _ _ _ Hn). intros [= <-]. auto.
  - unfold move. rewrite list_lookup_insert_ne by auto. auto.
Qed.

Lemma start_invariant args : invariant (start args).
Proof.
  unfold invariant, start. simpl. split; [|split; [|split]]; try discriminate.
  - intros n c H. apply list_lookup_fmap_Some in H as (a & -> & _). exact I.
  - auto.
Qed.

(** A caller other than the one that moved was not in the block. *)
Ltac other_caller Hinv Hm :=
  let Hok := fresh "Hok" in
  pose proof (proj1 Hinv _ _ Hm) as Hok;
  unfold caller_ok in Hok |- *; simpl in *;
  match goal with
  | |- match at_ ?d with _ => _ end => destruct (at_ d)
  end;
  simpl in *; intuition congruence.

Lemma arg_stays n c p s k d :
  callers s !! n = Some c ->
  callers s !! k = Some d ->
  exists d', move n c p s !! k = Some d' /\ arg d' = arg d.
Proof.
  intros Hn Hk. destruct (decide (k = n)) as [->|Hne].
  - eexists. split; [apply lookup_move_same, Hn|]. simpl. congruence.
  - exists d. split; [|reflexivity].
    unfold move. rewrite list_lookup_insert_ne by auto. exact Hk.
Qed.

Lemma step_invariant n s s' :
  step n s = Some s' -> invariant s -> invariant s'.
Proof.
  unfold step. destruct (callers s !! n) as [c|] eqn:Hn; [|discriminate].
  intros Hstep Hinv.
  pose proof (proj1 Hinv _ _ Hn) as Hc. unfold caller_ok in Hc.
  pose proof Hinv as (Hall & Hlock & Hfree & Hinst).
  assert (Hkeep : forall p obj self,
             _instance s = Some (obj, self) ->
             obj = 0 /\ created s = 1 /\ inits s = 1
             /\ exists k d, move n c p s !! k = Some d
                  /\ self = {| model_name := or_str (arg d) default_model |}).
  { intros p obj self Hi.
    destruct (Hinst _ _ Hi) as (-> & Hcr & Hin & k & d & Hk & ->).
    destruct (arg_stays n c p s k d Hn Hk) as (d' & Hd' & <-). eauto 8. }
  destruct (at_ c) as [| |obj|obj self|obj self] eqn:Hat.
  - (* takes the lock *)
    destruct (lock s) as [h|] eqn:Hl; [discriminate|].
    injection Hstep as <-. split; [|split; [|split]]; simpl.
    + intros m d Hm.
      apply (lookup_move _ _ _ _ _ _ Hn) in Hm as [[-> ->]|[Hne Hm]].
      * unfold caller_ok. simpl. split; [reflexivity|]. auto.
      * other_caller Hinv Hm.
    + intros m [= <-]. eexists. split; [apply lookup_move_same, Hn|].
      reflexivity.
    + discriminate.
    + apply Hkeep.
  - (* tests the attribute *)
    destruct Hc as [Hl Hnone].
    destruct (_instance s) as [[obj self]|] eqn:Hi; injection Hstep as <-.
    + split; [|split; [|split]]; simpl.
      * intros m d' Hm.
        apply (lookup_move _ _ _ _ _ _ Hn) in Hm as [[-> ->]|[Hne Hm]].
        -- unfold caller_ok. simpl. reflexivity.
        -- other_caller Hinv Hm.
      * discriminate.
      * discriminate.
      * apply Hkeep.
    + destruct (Hnone eq_refl) as [Hcr Hin].
      split; [|split; [|split]]; simpl.
      * intros m d Hm.
        apply (lookup_move _ _ _ _ _ _ Hn) in Hm as [[-> ->]|[Hne Hm]].
        -- unfold caller_ok. simpl. rewrite Hcr, Hin. auto.
        -- other_caller Hinv Hm.
      * rewrite Hl. intros m [= <-].
        eexists. split; [apply lookup_move_same, Hn|]. reflexivity.
      * rewrite Hl. discriminate.
      * discriminate.
  - (* runs _initialize *)
    destruct Hc as (Hl & Hi & -> & Hcr & Hin).
    injection Hstep as <-. split; [|split; [|split]]; simpl.
    + intros m d Hm.
      apply (lookup_move _ _ _ _ _ _ Hn) in Hm as [[-> ->]|[Hne Hm]].
      * unfold caller_ok. simpl. rewrite Hin.
        repeat split; assumption || reflexivity.
      * other_caller Hinv Hm.
    + rewrite Hl. intros m [= <-].
      eexists. split; [apply lookup_move_same, Hn|]. reflexivity.
    + rewrite Hl. discriminate.
    + rewrite Hi. discriminate.
  - (* publishes, returns, releases the lock *)
    destruct Hc as (Hl & Hi & -> & Hcr & Hin & ->).
    injection Hstep as <-. split; [|split; [|split]]; simpl.
    + intros m d Hm.
      apply (lookup_move _ _ _ _ _ _ Hn) in Hm as [[-> ->]|[Hne Hm]].
      * unfold caller_ok. reflexivity.
      * other_caller Hinv Hm.
    + discriminate.
    + discriminate.
    + intros ? ? [= <- <-]. repeat split; try assumption.
      eexists _, _. split; [apply lookup_move_same, Hn|]. reflexivity.
  - discriminate.
Qed.

Lemma run_invariant schedule : forall s,
  invariant s -> invariant (run schedule s).
Proof.
  induction schedule as [|n rest IH]; intros s Hinv; simpl; [exact Hinv|].
  apply IH. destruct (step n s) as [s'|] eqn:E; [|exact Hinv].
  exact (step_invariant _ _ _ E Hinv).
Qed.

Lemma step_args n s s' :
  step n s = Some s' -> arg <$> callers s' = arg <$> callers s.
Proof.
  unfold step. destruct (callers s !! n) as [c|] eqn:Hn; [|discriminate].
  assert (Hmove : forall p, arg <$> move n c p s = arg <$> callers s).
  { intros p. unfold move. rewrite list_fmap_insert. simpl.
    apply list_insert_id. rewrite list_lookup_fmap, Hn. reflexivity. }
  destruct (at_ c);
    [destruct (lock s) | destruct (_instance s) as [[? ?]|] | | |];
    intros [= <-]; simpl; auto.
Qed.

Lemma run_args schedule : forall s,
  arg <$> callers (run schedule s) = arg <$> callers s.
Proof.
  induction schedule as [|n rest IH]; intros s; simpl; [reflexivity|].
  rewrite IH. destruct (step n s) as [s'|] eqn:E; [|reflexivity].
  apply (step_args _ _ _ E).
Qed.

Lemma inits_at_most_one s : invariant s -> inits s <= 1.
Proof.
  intros (Hall & Hlock & Hfree & Hinst).
  destruct (_instance s) as [[obj self]|] eqn:Hi.
  - destruct (Hinst _ _ eq_refl) as (_ & _ & -> & _). lia.
  - destruct (lock s) as [h|] eqn:Hl.
    + destruct (Hlock _ eq_refl) as (c & Hc & Hholds).
      specialize (Hall _ _ Hc). unfold caller_ok in Hall.
      destruct (at_ c); try discriminate; intuition lia.
    + destruct (Hfree eq_refl eq_refl) as [_ ->]. lia.
Qed.

Lemma not_all_returned s :
  all_returned s = false ->
  exists n c, callers s !! n = Some c /\ has_returned (at_ c) = false.
Proof.
  unfold all_returned.
  induction (callers s) as [|c l IH]; simpl; [discriminate|].
  destruct (has_returned (at_ c)) eqn:E; simpl.
  - intros H. destruct (IH H) as (n & d & Hn & Hd). exists (S n), d. auto.
  - intros _. exists 0, c. auto.
Qed.

(** Somebody can always move, until all have returned. *)
Lemma step_enabled s :
  invariant s -> all_returned s = false -> exists n s', step n s = Some s'.
Proof.
  intros (Hall & Hlock & _ & _) Hnot.
  destruct (lock s) as [h|] eqn:Hl.
  - destruct (Hlock _ eq_refl) as (c & Hc & Hholds).
    exists h. unfold step. rewrite Hc.
    destruct (at_ c); try discriminate; eauto.
    destruct (_instance s) as [[? ?]|]; eauto.
  - destruct (not_all_returned _ Hnot) as (n & c & Hc & Hret).
    exists n. unfold step. rewrite Hc.
    specialize (Hall _ _ Hc). unfold caller_ok in Hall.
    destruct (at_ c); try discriminate;
      try (apply proj1 in Hall; congruence).
    rewrite Hl. eauto.
Qed.

Lemma steps_left_insert (l : list caller) n c c' :
  l !! n = Some c ->
  list_sum (List.map (fun c => steps_left (at_ c)) (<[n := c']> l))
  + steps_left (at_ c)
  = list_sum (List.map (fun c => steps_left (at_ c)) l) + steps_left (at_ c').
Proof.
  revert n. induction l as [|x l IH]; intros [|n]; simpl; try discriminate.
  - intros [= ->]. lia.
  - intros H. specialize (IH _ H). lia.
Qed.

(** Every move brings the end nearer. *)
Lemma step_decreases n s s' :
  step n s = Some s' -> remaining s' < remaining s.
Proof.
  unfold step, remaining.
  destruct (callers s !! n) as [c|] eqn:Hn; [|discriminate].
  assert (Hmove : forall p,
             steps_left p < steps_left (at_ c) ->
             list_sum (List.map (fun c => steps_left (at_ c)) (move n c p s))
             < list_sum (List.map (fun c => steps_left (at_ c)) (callers s))).
  { intros p Hp. unfold move.
    pose proof (steps_left_insert _ _ _ {| arg := arg c; at_ := p |} Hn) as H.
    simpl in H. lia. }
  destruct (at_ c) eqn:Hat;
    [destruct (lock s)| destruct (_instance s) as [[? ?]|]| | |];
    intros [= <-]; simpl; apply Hmove; simpl; lia.
Qed.

(** So the callers can all be brought to return. *)
Lemma run_completes k : forall s,
  invariant s -> remaining s <= k ->
  exists more, all_returned (run more s) = true.
Proof.
  induction k as [|k IH]; intros s Hinv Hk;
    destruct (all_returned s) eqn:Hall;
    try (exists []; exact Hall);
    destruct (step_enabled _ Hinv Hall) as (n & s' & Hstep);
    pose proof (step_decreases _ _ _ Hstep) as Hdec.
  - lia.
  - destruct (IH s' (step_invariant _ _ _ Hstep Hinv) ltac:(lia)) as [more H].
    exists (n :: more). simpl. rewrite Hstep. exact H.
Qed.

(** A caller alone goes through the block in four turns and comes out
    with the service that [get_instance] builds in one go. *)
Lemma lone_caller_agrees {Env : Type} name (w : World Env) :
  instance w = None ->
  let self := {| model_name := or_str name default_model |} in
  let s := run [0; 0; 0; 0] (start [name]) in
  callers s !! 0 = Some {| arg := name; at_ := Returned 0 self |}
  /\ _instance s = Some (0, self)
  /\ lock s = None
  /\ fst (get_instance name w) = Ok self
  /\ instance (snd (get_instance name w)) = Some self.
Proof.
  intros Hw self s. unfold get_instance. rewrite Hw.
  repeat split; reflexivity.
Qed.

(** C6.  However many callers ask for the instance for the first time,
    and however they are scheduled: [_initialize] has run once at most,
    and once exactly as soon as one caller has returned; all callers that
    have returned hold the same object, the one in [cls._instance], with
    the default model when no caller named another; a caller that arrives
    while another is between construction and publication cannot enter;
    and nobody is stuck: some caller can always move, each move brings
    the end nearer, and all can be brought to return. *)
Theorem singleton_initialized_once args schedule :
  let s := run schedule (start args) in
  inits s <= 1
  /\ (forall n c obj self,
        callers s !! n = Some c -> at_ c = Returned obj self ->
        inits s = 1
        /\ _instance s = Some (obj, self)
        /\ (forall m d obj' self',
              callers s !! m = Some d -> at_ d = Returned obj' self' ->
              obj' = obj /\ self' = self)
        /\ (Forall (fun a => a = None) args ->
            self = {| model_name := default_model |}))
  /\ (forall n c m d,
        callers s !! n = Some c -> at_ c = Arrived ->
        callers s !! m = Some d -> initializing (at_ d) = true ->
        step n s = None)
  /\ (all_returned s = false -> exists n s', step n s = Some s')
  /\ (forall n s', step n s = Some s' -> remaining s' < remaining s)
  /\ (exists more, all_returned (run more s) = true).
Proof.
  intros s.
  assert (Hinv : invariant s) by apply run_invariant, start_invariant.
  pose proof Hinv as (Hall & Hlock & Hfree & Hinst).
  split; [apply inits_at_most_one, Hinv|].
  split; [|split; [|split; [|split]]].
  - intros n c obj self Hc Hat.
    pose proof (Hall _ _ Hc) as Hok. unfold caller_ok in Hok.
    rewrite Hat in Hok.
    destruct (Hinst _ _ Hok) as (-> & _ & Hin & k & d & Hk & Hself).
    split; [exact Hin|]. split; [exact Hok|]. split.
    + intros m d' obj' self' Hm Hat'.
      pose proof (Hall _ _ Hm) as Hok'. unfold caller_ok in Hok'.
      rewrite Hat' in Hok'. rewrite Hok in Hok'.
      injection Hok' as <- <-. auto.
    + intros Hargs. rewrite Hself.
      assert (Hd : arg d = None).
      { assert (Hk' : (arg <$> callers s) !! k = Some (arg d))
          by (rewrite list_lookup_fmap, Hk; reflexivity).
        subst s. rewrite run_args in Hk'. simpl in Hk'.
        rewrite <- list_fmap_compose in Hk'.
        apply list_lookup_fmap_Some in Hk' as (a & Ha & Hka).
        simpl in Ha. rewrite Ha.
        apply (proj1 (List.Forall_forall _ _) Hargs).
        apply list_elem_of_In. eapply list_elem_of_lookup_2, Hka. }
      rewrite Hd. reflexivity.
  - intros n c m d Hc Hat Hm Hinit.
    pose proof (Hall _ _ Hm) as Hok. unfold caller_ok in Hok.
    unfold step. rewrite Hc, Hat.
    destruct (at_ d); try discriminate; destruct Hok as [-> _]; reflexivity.
  - apply step_enabled, Hinv.
  - intros n s' H. apply (step_decreases _ _ _ H).
  - apply (run_completes (remaining s)); [exact Hinv | lia].
Qed.

Lemma singleton_initialized_once_witness :
  let s := run [0; 1; 0; 2; 0; 1; 0; 2; 1; 2; 1; 1] (start [None; None; None]) in
  all_returned s = true
  /\ callers s !! 2 = Some {| arg := None;
                             at_ := Returned 0 {| model_name := default_model |} |}
  /\ inits s = 1
  /\ _instance s = Some (0, {| model_name := default_model |})
  /\ forall m d obj' self',
      callers s !! m = Some d -> at_ d = Returned obj' self' ->
      obj' = 0 /\ self' = {| model_name := default_model |}.
Proof.
  intros s.
  assert (H2 : callers s !! 2
               = Some {| arg := None;
                         at_ := Returned 0 {| model_name := default_model |} |})
    by reflexivity.
  split; [reflexivity|]. split; [exact H2|].
  destruct (proj1 (proj2 (singleton_initialized_once
                            [None; None; None]
                            [0; 1; 0; 2; 0; 1; 0; 2; 1; 2; 1; 1]))
              2 _ 0 {| model_name := default_model |} H2 eq_refl)
    as (Hin & Hi & Hsame & _).
  split; [exact Hin|]. split; [exact Hi|]. exact Hsame.
Defined.

End SingletonFacts.

(** * Further properties *)

(** ** More on the sanitizer *)

Lemma lstrip_spaces l s :
  Forall (fun c => isspace c = true) l -> lstrip (l ++ s) = lstrip s.
Proof.
  induction 1 as [|c l Hc _ IH]; simpl; [reflexivity|].
  rewrite Hc. exact IH.
Qed.

Lemma lstrip_all_spaces r :
  Forall (fun c => isspace c = true) r -> lstrip r = [].
Proof.
  intros H. rewrite <- (app_nil_r r), lstrip_spaces by exact H. reflexivity.
Qed.

(** Trimming has one outcome: [strip] is the only function that meets
    [trimmed]. *)
Lemma trimmed_strip s t : trimmed s t -> t = strip s.
Proof.
  intros (l & r & -> & Hl & Hr & Hhead & Hlast).
  unfold strip. rewrite lstrip_spaces by exact Hl.
  destruct t as [|c t'].
  - simpl. rewrite lstrip_all_spaces by exact Hr. reflexivity.
  - assert (Hfix : lstrip ((c :: t') ++ r) = (c :: t') ++ r).
    { simpl. rewrite (Hhead c t' eq_refl). reflexivity. }
    rewrite Hfix. unfold rstrip. rewrite rev_app_distr.
    rewrite lstrip_spaces by (apply Forall_rev, Hr).
    destruct (rev (c :: t')) as [|x u] eqn:Hrev.
    + apply (f_equal (@rev N)) in Hrev. rewrite rev_involutive in Hrev.
      discriminate.
    + assert (Ht : c :: t' = rev u ++ [x]).
      { rewrite <- (rev_involutive (c :: t')), Hrev. reflexivity. }
      simpl. rewrite (Hlast x (rev u) Ht). simpl. exact Ht.
Qed.

Lemma strip_padding l s r :
  Forall (fun c => isspace c = true) l ->
  Forall (fun c => isspace c = true) r ->
  strip (l ++ s ++ r) = strip s.
Proof.
  intros Hl Hr. symmetry. apply trimmed_strip.
  destruct (strip_trimmed s) as (l0 & r0 & Hs & Hl0 & Hr0 & Hhead & Hlast).
  exists (l ++ l0), (r0 ++ r). repeat split; try assumption.
  - rewrite Hs at 1. rewrite <- !app_assoc. reflexivity.
  - apply Forall_app; auto.
  - apply Forall_app; auto.
Qed.

Lemma strip_sublist s : strip s `sublist_of` s.
Proof.
  destruct (strip_trimmed s) as (l & r & Hs & _).
  rewrite Hs at 2. apply sublist_inserts_l, sublist_inserts_r. reflexivity.
Qed.

Lemma re_sub_sublist s : re_sub s `sublist_of` s.
Proof.
  remember (length s) as n eqn:Hn. revert s Hn.
  induction n as [n IH] using lt_wf_ind. intros [|c s] Hn.
  - simp re_sub. reflexivity.
  - rewrite re_sub_cons. destruct (match_think (c :: s)) as [r|] eqn:E.
    + pose proof (match_think_length _ _ E) as Hlen.
      destruct (match_think_Some _ _ E) as (m & Heq & _).
      rewrite Heq, (app_assoc m), (app_assoc open_marker).
      apply sublist_inserts_l.
      apply (IH (length r)); [lia | reflexivity].
    + apply sublist_skip.
      apply (IH (length s)); [simpl in Hn; lia | reflexivity].
Qed.

(** X1.  The sanitizer only takes away: what it returns is the text
    with some characters left out, none added and none moved, so it is
    never longer than the text. *)
Theorem strip_thinking_only_removes x :
  strip_thinking x `sublist_of` x
  /\ length (strip_thinking x) <= length x.
Proof.
  assert (H : strip_thinking x `sublist_of` x).
  { unfold strip_thinking. etransitivity; [apply strip_sublist|].
    apply re_sub_sublist. }
  split; [exact H|]. apply sublist_length, H.
Qed.

Lemma re_sub_plain_prefix a s :
  ~ In 60%N a -> re_sub (a ++ s) = a ++ re_sub s.
Proof.
  induction a as [|c a IH]; intros Hno; [reflexivity|].
  simpl. rewrite re_sub_nomatch.
  - f_equal. apply IH. intros H. apply Hno. right. exact H.
  - unfold match_think.
    change (starts_with open_marker (c :: a ++ s))
      with ((60 =? c)%N && starts_with (drop 1 open_marker) (a ++ s)).
    destruct (N.eqb_spec 60 c) as [<-|_]; [|reflexivity].
    exfalso. apply Hno. left. reflexivity.
Qed.

Lemma first_lt_is_first (a a' x y : str) :
  ~ In 60%N a ->
  a ++ 60%N :: x = a' ++ 60%N :: y ->
  length a <= length a'.
Proof.
  revert a'. induction a as [|c a IH]; intros a' Hno Heq; simpl; [lia|].
  destruct a' as [|c' a']; simpl in Heq.
  - injection Heq as -> _. exfalso. apply Hno. left. reflexivity.
  - injection Heq as _ Heq. simpl.
    assert (length a <= length a'); [|lia].
    apply IH; [|exact Heq]. intros H. apply Hno. right. exact H.
Qed.

(** X2.  A reasoning section whose text has no [<] in it, standing
    after a text with no [<] in it, is dropped whole: the result is what
    the sanitizer gives for the text without the section. *)
Theorem reasoning_section_is_dropped a m b :
  ~ In 60%N a ->
  ~ In 60%N m ->
  strip_thinking (a ++ open_marker ++ m ++ close_marker ++ b)
  = strip_thinking (a ++ b).
Proof.
  intros Ha Hm. unfold strip_thinking. f_equal.
  rewrite (re_sub_plain_prefix a b Ha).
  rewrite (re_sub_plain_prefix a _ Ha). f_equal.
  apply re_sub_match, match_think_first.
  intros m' b' Heq. apply (first_lt_is_first m m' _ _ Hm Heq).
Qed.

Lemma reasoning_section_is_dropped_witness :
  ~ In 60%N (lit " ")
  /\ ~ In 60%N (lit "the post is about cats")
  /\ strip_thinking (lit " " ++ open_marker ++ lit "the post is about cats"
                     ++ close_marker ++ lit " True ")
     = lit "True".
Proof.
  assert (Ha : ~ In 60%N (lit " ")) by (vm_compute; intuition discriminate).
  assert (Hm : ~ In 60%N (lit "the post is about cats"))
    by (vm_compute; intuition discriminate).
  split; [exact Ha|]. split; [exact Hm|].
  rewrite (reasoning_section_is_dropped _ _ (lit " True ") Ha Hm).
  reflexivity.
Defined.

Lemma strip_thinking_fixed y :
  has_section y = false -> strip y = y -> strip_thinking y = y.
Proof.
  intros Hs Hy. unfold strip_thinking.
  rewrite re_sub_section_free by (apply has_section_false, Hs). exact Hy.
Qed.

Lemma strip_thinking_times_fixed n y :
  strip_thinking y = y -> strip_thinking_times n y = y.
Proof.
  intros Hy. induction n as [|n IH]; simpl; [reflexivity|].
  rewrite Hy. exact IH.
Qed.

Lemma strip_thinking_times_settles n : forall y,
  strip y = y -> length y <= n ->
  strip_thinking (strip_thinking_times n y) = strip_thinking_times n y
  /\ has_section (strip_thinking_times n y) = false.
Proof.
  induction n as [|n IH]; intros y Hy Hlen.
  - destruct y; [|simpl in Hlen; lia]. split; reflexivity.
  - destruct (has_section y) eqn:Hs.
    + simpl. apply IH.
      * apply strip_idem.
      * pose proof (has_section_shrinks _ Hs) as H1.
        pose proof (strip_length (re_sub y)) as H2.
        unfold strip_thinking. lia.
    + pose proof (strip_thinking_fixed _ Hs Hy) as Hfix.
      rewrite (strip_thinking_times_fixed _ _ Hfix). auto.
Qed.

(** X3.  Applied again and again the sanitizer comes to rest: after one
    pass more than the text has characters, a further pass changes
    nothing and no section is left. *)
Theorem strip_thinking_settles x :
  let y := strip_thinking_times (S (length x)) x in
  strip_thinking y = y /\ has_section y = false.
Proof.
  simpl. apply strip_thinking_times_settles.
  - apply strip_idem.
  - unfold strip_thinking.
    pose proof (strip_length (re_sub x)). pose proof (re_sub_length x). lia.
Qed.

Lemma contains_true_occurs p s :
  contains p s = true -> exists a b, s = a ++ p ++ b.
Proof.
  unfold contains. destruct (find_after p s) as [b|] eqn:E; [|discriminate].
  intros _. apply find_after_Some in E as (a & Heq & _). eauto.
Qed.

Lemma no_close_marker_free s :
  contains close_marker s = false -> section_free s.
Proof.
  intros H a m b Heq.
  apply (contains_false_free _ _ H (a ++ open_marker ++ m) b).
  rewrite Heq, <- !app_assoc. reflexivity.
Qed.

Lemma In_strip c s : In c s -> isspace c = false -> In c (strip s).
Proof.
  intros Hin Hc.
  destruct (strip_trimmed s) as (l & r & Hs & Hl & Hr & _).
  rewrite Hs in Hin.
  apply in_app_or in Hin as [Hin|Hin];
    [|apply in_app_or in Hin as [Hin|Hin]; [exact Hin|]].
  - rewrite List.Forall_forall in Hl. rewrite (Hl _ Hin) in Hc. discriminate.
  - rewrite List.Forall_forall in Hr. rewrite (Hr _ Hin) in Hc. discriminate.
Qed.

Lemma In_lower_with f c s :
  In c s -> (c <? 65)%N = true -> In c (lower_with f s).
Proof.
  intros Hin Hc. unfold lower_with. apply in_concat.
  exists [c]. split; [|left; reflexivity].
  apply in_map_iff. exists c. split; [|exact Hin].
  apply N.ltb_lt in Hc.
  destruct (N.leb_spec 65 c); [lia|]. simpl.
  destruct (N.ltb_spec c 128); [reflexivity | lia].
Qed.

Section AnswerProperties.

Context {Env Keypair : Type} `{C : Collaborators Env Keypair}.

(** X4.  An answer whose reasoning section is never closed is not cut:
    the sanitizer only trims it, and with the open marker still in it the
    answer is not relevant, whatever follows the marker. *)
Theorem unclosed_reasoning_is_not_relevant x :
  contains close_marker x = false ->
  contains open_marker x = true ->
  strip_thinking x = strip x
  /\ is_relevant (strip_thinking x) = false.
Proof.
  intros Hclose Hopen.
  assert (Hx : strip_thinking x = strip x).
  { unfold strip_thinking.
    rewrite re_sub_section_free by (apply no_close_marker_free, Hclose).
    reflexivity. }
  split; [exact Hx|].
  destruct (is_relevant (strip_thinking x)) eqn:E; [|reflexivity].
  exfalso. unfold is_relevant in E. apply str_eqb_eq in E.
  destruct (contains_true_occurs _ _ Hopen) as (a & b & Hab).
  assert (Hin : In 60%N (lower (strip (strip_thinking x)))).
  { apply In_lower_with; [|reflexivity].
    rewrite Hx, strip_idem. apply In_strip; [|reflexivity].
    rewrite Hab. apply in_or_app. right. left. reflexivity. }
  rewrite E in Hin. vm_compute in Hin. intuition discriminate.
Qed.

(** X5.  What the sanitizer returns is trimmed already, so the [strip]
    the tagger applies to it changes nothing, and the verdict is the
    comparison of the sanitized answer in lower case with [true]. *)
Theorem sanitized_answer_is_trimmed x :
  strip (strip_thinking x) = strip_thinking x
  /\ is_relevant (strip_thinking x)
     = str_eqb (lower (strip_thinking x)) true_literal.
Proof.
  assert (H : strip (strip_thinking x) = strip_thinking x)
    by apply strip_idem.
  split; [exact H|]. unfold is_relevant. rewrite H. reflexivity.
Qed.

(** X6.  White space around an answer has no part in the verdict. *)
Theorem verdict_ignores_padding l s r :
  Forall (fun c => isspace c = true) l ->
  Forall (fun c => isspace c = true) r ->
  strip (l ++ s ++ r) = strip s
  /\ is_relevant (l ++ s ++ r) = is_relevant s.
Proof.
  intros Hl Hr.
  assert (H : strip (l ++ s ++ r) = strip s)
    by (apply strip_padding; assumption).
  split; [exact H|]. unfold is_relevant. rewrite H. reflexivity.
Qed.

End AnswerProperties.

Lemma unclosed_reasoning_is_not_relevant_witness :
  let C := scripted (Ok abc_prompts) (Ok (a_quoted_post "nuance")) in
  let x := lit " <think>the post might be about A, so true" in
  contains close_marker x = false
  /\ contains open_marker x = true
  /\ strip_thinking x = strip x
  /\ is_relevant (C := C) (strip_thinking x) = false.
Proof.
  intros C x. split; [reflexivity|]. split; [reflexivity|].
  exact (unclosed_reasoning_is_not_relevant (C := C) x eq_refl eq_refl).
Defined.

Lemma verdict_ignores_padding_witness :
  let C := scripted (Ok abc_prompts) (Ok (a_quoted_post "nuance")) in
  let l := [10%N; 32%N] in
  let r := [9%N; 13%N; 10%N] in
  Forall (fun c => isspace c = true) l
  /\ Forall (fun c => isspace c = true) r
  /\ strip (l ++ lit "True" ++ r) = strip (lit "True")
  /\ is_relevant (C := C) (l ++ lit "True" ++ r)
     = is_relevant (C := C) (lit "True").
Proof.
  intros C l r.
  assert (Hl : Forall (fun c => isspace c = true) l)
    by (repeat constructor).
  assert (Hr : Forall (fun c => isspace c = true) r)
    by (repeat constructor).
  split; [exact Hl|]. split; [exact Hr|].
  exact (verdict_ignores_padding (C := C) l (lit "True") r Hl Hr).
Defined.

(** ** More on the LLM service *)

Lemma get_post_calls_app t1 t2 :
  get_post_calls (t1 ++ t2) = get_post_calls t1 ++ get_post_calls t2.
Proof.
  induction t1 as [|[] t1 IH]; simpl; try exact IH.
  - reflexivity.
  - f_equal. exact IH.
Qed.

Lemma http_calls_llm_events t : http_calls (llm_events t) = http_calls t.
Proof.
  induction t as [|[] t IH]; simpl; try exact IH.
  - reflexivity.
  - f_equal. exact IH.
Qed.

Lemma instance_recorded {Env} (w : World Env) ev :
  instance (recorded w ev) = instance w.
Proof. reflexivity. Qed.

Lemma instance_with_env {Env} (w : World Env) e :
  instance (with_env w e) = instance w.
Proof. reflexivity. Qed.

#[global] Hint Rewrite @instance_recorded @instance_with_env
  get_post_calls_app : world.

Section ServiceMore.

Context {Env Keypair : Type} `{C : Collaborators Env Keypair}.
Local Open Scope run_scope.

Lemma call_model_exact self prompt model mt t p (k : option Keypair) w r w' :
  _call_model self prompt model mt t p k w = (r, w') ->
  let req := chat_request CHUTES_API_KEY prompt model mt t p in
  r = match fst (async_http_request_with_retry req (env w)) with
      | Ok data => first_choice_content data
      | Raise e => Raise e
      end
  /\ env w' = snd (async_http_request_with_retry req (env w))
  /\ heap w' = heap w
  /\ instance w' = instance w
  /\ llm_events (trace w') = llm_events (trace w) ++ [EvHttp req]
  /\ get_post_calls (trace w') = get_post_calls (trace w).
Proof.
  intros H. cbv zeta. unfold _call_model, chat_request in *.
  match goal with |- context [fst (async_http_request_with_retry ?r _)] =>
    set (req := r) in * end.
  revert H. run_step.
  destruct (async_http_request_with_retry req (env w)) as [[data|e] e'];
    simpl fst; simpl snd; cbv beta iota.
  2: { intros [= <- <-]. autorewrite with world. simpl.
       rewrite ?app_nil_r. repeat split; reflexivity. }
  do 3 run_step. unfold first_choice_content.
  run_step; destruct (getitem_key data _) as [choices|e1]; cbv beta iota;
    [run_step; destruct (getitem_0 choices) as [choice|e2]; cbv beta iota;
     [run_step; destruct (getitem_key choice _) as [message|e3];
      cbv beta iota;
      [run_step; destruct (getitem_key message _) as [llm_response|e4];
       cbv beta iota; [run_step|]|]|]|].
  all: intros [= <- <-]; autorewrite with world; simpl;
    rewrite ?app_nil_r, <- ?app_assoc; repeat split; reflexivity.
Qed.

Lemma get_instance_exact (name : option str) (w : World Env) i w' :
  get_instance name w = (Ok i, w') ->
  instance w' = Some i
  /\ env w' = env w /\ heap w' = heap w
  /\ llm_events (trace w') = llm_events (trace w)
  /\ get_post_calls (trace w') = get_post_calls (trace w)
  /\ match instance w with
     | Some j => i = j /\ w' = w
     | None => i = {| model_name := or_str name default_model |}
     end.
Proof.
  unfold get_instance. destruct (instance w) as [j|] eqn:E.
  - intros [= <- <-]. rewrite E. repeat split; reflexivity.
  - unfold _initialize. do 2 run_step. unfold set_instance. run_step.
    intros [= <- <-]. simpl. autorewrite with world. simpl.
    rewrite ?app_nil_r. repeat split; reflexivity.
Qed.

Lemma get_instance_total (name : option str) (w : World Env) :
  exists i w', get_instance name w = (Ok i, w').
Proof.
  unfold get_instance. destruct (instance w) as [j|]; [eauto|].
  unfold _initialize. do 2 run_step. unfold set_instance. run_step. eauto.
Qed.

(** X7.  [get_instance] builds the service once.  The first call makes
    it with the name it was given, or the default model when the name is
    missing or empty; a later call returns that same service whatever
    name it is given, and leaves no record of an initialization. *)
Theorem get_instance_returns_the_published name1 name2 (w : World Env) i w1 :
  get_instance name1 w = (Ok i, w1) ->
  get_instance name2 w1 = (Ok i, w1)
  /\ match instance w with
     | Some j => i = j
     | None => model_name i = or_str name1 default_model
     end
  /\ or_str (Some []) default_model = default_model.
Proof.
  intros H. apply get_instance_exact in H as (Hi & _ & _ & _ & _ & Hw).
  split; [|split; [|reflexivity]].
  - unfold get_instance. rewrite Hi. reflexivity.
  - destruct (instance w); [tauto | rewrite Hw; reflexivity].
Qed.

Lemma query_llm_exact prompt model mt t p (k : option Keypair) w :
  let out := query_llm prompt model mt t p k w in
  let self := service_of (instance w) in
  let req := chat_request CHUTES_API_KEY prompt
                          (or_str model (model_name self)) mt t p in
  heap (snd out) = heap w
  /\ get_post_calls (trace (snd out)) = get_post_calls (trace w)
  /\ match keypair_is_true k, fst (get_wallet_hotkey (env w)) with
     | false, Raise e =>
         fst out = Raise e
         /\ llm_events (trace (snd out)) = llm_events (trace w) ++ [EvGetWallet]
         /\ instance (snd out) = instance w
     | false, Ok _ =>
         llm_events (trace (snd out))
         = llm_events (trace w) ++ [EvGetWallet; EvHttp req]
         /\ instance (snd out) = Some self
     | true, _ =>
         llm_events (trace (snd out)) = llm_events (trace w) ++ [EvHttp req]
         /\ instance (snd out) = Some self
     end.
Proof.
  intros out self req. subst out. unfold query_llm. rewrite bind_run.
  assert (Hrest : forall k1 w0,
             heap w0 = heap w -> instance w0 = instance w ->
             let out := (service <- get_instance None ;;
                         query service prompt model mt t p k1) w0 in
             heap (snd out) = heap w
             /\ get_post_calls (trace (snd out)) = get_post_calls (trace w0)
             /\ llm_events (trace (snd out))
                = llm_events (trace w0) ++ [EvHttp req]
             /\ instance (snd out) = Some self).
  { intros k1 w0 Hh Hi. cbv zeta. rewrite bind_run.
    destruct (get_instance_total None w0) as (i & w1 & Hg). rewrite Hg.
    cbv beta iota.
    apply get_instance_exact in Hg as (Hi1 & _ & Hh1 & Hl1 & Hp1 & Hw).
    assert (Hself : i = self).
    { subst self. rewrite Hi in Hw. destruct (instance w); tauto. }
    unfold query.
    destruct (_call_model i prompt (or_str model (model_name i)) mt t p
                k1 w1) as [r w2] eqn:Hc.
    apply call_model_exact in Hc as (_ & _ & Hh2 & Hi2 & Hl2 & Hp2).
    simpl. rewrite Hh2, Hh1, Hi2, Hi1, Hl2, Hl1, Hp2, Hp1, Hself. auto. }
  destruct (keypair_is_true k); cbn [negb].
  - rewrite ret_run. cbv beta iota.
    destruct (Hrest k w eq_refl eq_refl) as (Hh & Hp & Hl & Hi). auto.
  - run_step. destruct (get_wallet_hotkey (env w)) as [[k0|e] e0];
      simpl fst; simpl snd; cbv beta iota.
    + destruct (Hrest (Some k0) (with_env (recorded w EvGetWallet) e0)
                  eq_refl eq_refl) as (Hh & Hp & Hl & Hi).
      split; [exact Hh|]. split; [|split; [|exact Hi]].
      * rewrite Hp. autorewrite with world. simpl.
        rewrite ?app_nil_r. reflexivity.
      * rewrite Hl. autorewrite with world. simpl.
        rewrite ?app_nil_r, <- ?app_assoc. reflexivity.
    + simpl. autorewrite with world. simpl. rewrite ?app_nil_r. auto.
Qed.

(** X8.  [query_llm] asks the wallet exactly when the keypair it was
    given is false, which [None] is and a keypair that is passed may be,
    and before anything else: when the wallet fails, that failure is the
    result, no request goes out and no service is built.  Otherwise, and
    with a true keypair without asking, one request goes out, naming the
    given model or else the model of the service there is (the default
    model when there was none), and afterwards that service is the
    published one. *)
Theorem query_llm_asks_the_wallet_first prompt model mt t p
    (k : option Keypair) w :
  let out := query_llm prompt model mt t p k w in
  let self := service_of (instance w) in
  let req := chat_request CHUTES_API_KEY prompt
                          (or_str model (model_name self)) mt t p in
  keypair_is_true None = false
  /\ match keypair_is_true k, fst (get_wallet_hotkey (env w)) with
     | false, Raise e =>
         fst out = Raise e
         /\ llm_events (trace (snd out)) = llm_events (trace w) ++ [EvGetWallet]
         /\ instance (snd out) = instance w
     | false, Ok _ =>
         llm_events (trace (snd out))
         = llm_events (trace w) ++ [EvGetWallet; EvHttp req]
         /\ instance (snd out) = Some self
     | true, _ =>
         llm_events (trace (snd out)) = llm_events (trace w) ++ [EvHttp req]
         /\ instance (snd out) = Some self
     end.
Proof.
  intros out self req. split; [reflexivity|].
  destruct (query_llm_exact prompt model mt t p k w) as (_ & _ & H).
  exact H.
Qed.

End ServiceMore.

Lemma query_llm_asks_the_wallet_first_witness :
  let C := scripted (Ok abc_prompts) (Ok (a_quoted_post "nuance")) in
  let w := a_world [completion "hello"] (a_post TWITTER ∅) in
  let events keypair :=
    llm_events
      (trace (snd (query_llm (C := C) (lit "hi") None 1024 0%float 0.5%float
                     keypair w))) in
  let req := chat_request (lit "secret") (lit "hi") (lit "Qwen/Qwen3-8B")
               1024 0%float 0.5%float in
  events None = [EvGetWallet; EvHttp req]
  /\ events (Some false) = [EvGetWallet; EvHttp req]
  /\ events (Some true) = [EvHttp req].
Proof.
  intros C w events req.
  split; [|split].
  - exact (proj1 (proj2 (query_llm_asks_the_wallet_first (C := C) (lit "hi")
                           None 1024 0%float 0.5%float None w))).
  - exact (proj1 (proj2 (query_llm_asks_the_wallet_first (C := C) (lit "hi")
                           None 1024 0%float 0.5%float (Some false) w))).
  - exact (proj1 (proj2 (query_llm_asks_the_wallet_first (C := C) (lit "hi")
                           None 1024 0%float 0.5%float (Some true) w))).
Defined.

Lemma get_instance_returns_the_published_witness :
  let w := a_world [] (a_post TWITTER ∅) in
  let i := {| model_name := lit "my-model" |} in
  let w1 := snd (get_instance (Some (lit "my-model")) w) in
  get_instance (Some (lit "my-model")) w = (Ok i, w1)
  /\ get_instance (Some (lit "another")) w1 = (Ok i, w1)
  /\ get_instance None w1 = (Ok i, w1).
Proof.
  intros w i w1.
  assert (H : get_instance (Some (lit "my-model")) w = (Ok i, w1))
    by reflexivity.
  split; [exact H|]. split.
  - exact (proj1 (get_instance_returns_the_published
                    _ (Some (lit "another")) w i w1 H)).
  - exact (proj1 (get_instance_returns_the_published _ None w i w1 H)).
Defined.

(** ** More on the topic tagger *)

Section TaggerMore.

Context {Env Keypair : Type} `{C : Collaborators Env Keypair}.
Local Open Scope run_scope.

(** One query of the loop: what it sends and what it leaves alone. *)
Lemma loop_query_views prompt w r w' :
  query_llm prompt None 1024 0%float 0.5%float None w = (r, w') ->
  heap w' = heap w
  /\ get_post_calls (trace w') = get_post_calls (trace w)
  /\ service_of (instance w') = service_of (instance w)
  /\ (forall i, instance w = Some i -> instance w' = Some i)
  /\ (http_calls (trace w') = http_calls (trace w) /\ (forall v, r <> Ok v)
      \/ http_calls (trace w')
         = http_calls (trace w)
           ++ [tagger_request (service_of (instance w)) prompt]).
Proof.
  intros Hq.
  pose proof (query_llm_exact prompt None 1024 0%float 0.5%float None w) as H.
  cbv zeta in H. rewrite Hq in H. simpl fst in H; simpl snd in H.
  cbn [keypair_is_true] in H. destruct H as (Hh & Hp & H).
  split; [exact Hh|]. split; [exact Hp|].
  destruct (fst (get_wallet_hotkey (env w))) as [k0|e].
  - destruct H as (Hl & Hi). rewrite Hi. split; [reflexivity|]. split.
    + intros i Hw. rewrite Hw. reflexivity.
    + right. rewrite <- (http_calls_llm_events (trace w')), Hl.
      rewrite http_calls_app, http_calls_llm_events. reflexivity.
  - destruct H as (Hr & Hl & Hi). rewrite Hi. split; [reflexivity|]. split.
    + auto.
    + left. split; [|intros v; rewrite Hr; discriminate].
      rewrite <- (http_calls_llm_events (trace w')), Hl.
      rewrite http_calls_app, http_calls_llm_events. simpl.
      apply app_nil_r.
Qed.

(** The loop sends one request per topic, in the mapping's order, until
    it ends or something fails. *)
Lemma check_topics_requests pid text items : forall acc w r w',
  check_topics pid text items acc w = (r, w') ->
  get_post_calls (trace w') = get_post_calls (trace w)
  /\ service_of (instance w') = service_of (instance w)
  /\ (forall i, instance w = Some i -> instance w' = Some i)
  /\ exists prompts,
      http_calls (trace w')
      = http_calls (trace w)
        ++ List.map (tagger_request (service_of (instance w))) prompts
      /\ formats_to text (take (length prompts) items) prompts
      /\ length prompts <= length items
      /\ match r with
         | Ok _ => length prompts = length items
         | Raise _ => True
         end.
Proof.
  induction items as [|[topic tmpl] rest IH]; intros acc w r w'.
  - cbn [check_topics]. rewrite ret_run. intros [= <- <-].
    repeat split; auto. exists []. simpl. rewrite app_nil_r.
    repeat split; auto. constructor.
  - cbn [check_topics]. run_step.
    destruct (str_format tmpl text) as [prompt|e] eqn:Hf; cbv beta iota.
    2: { intros [= <- <-]. repeat split; auto. exists []. simpl.
         rewrite app_nil_r. repeat split; auto; [constructor | lia]. }
    run_step.
    destruct (query_llm prompt None 1024 0%float 0.5%float None w)
      as [[answer|e] w1] eqn:Hq; cbv beta iota;
      apply loop_query_views in Hq as (Hh1 & Hp1 & Hs1 & Hi1 & Hc1).
    2: { intros [= <- <-]. repeat split; auto.
         destruct Hc1 as [[Hc1 _]|Hc1].
         - exists []. simpl. rewrite app_nil_r.
           repeat split; auto; [constructor | lia].
         - exists [prompt]. simpl. repeat split; auto; [|lia].
           constructor; [exact Hf | constructor]. }
    destruct Hc1 as [[_ Hno]|Hc1]; [exfalso; exact (Hno _ eq_refl)|].
    assert (Hone : formats_to text (take 1 ((topic, tmpl) :: rest)) [prompt]).
    { simpl. rewrite take_0. constructor; [exact Hf | constructor]. }
    run_step.
    destruct answer as [| | | |raw| |]; cbn [strip_thinking_of]; cbv beta iota;
      try (intros [= <- <-]; repeat split; auto;
           exists [prompt]; simpl; repeat split; auto; lia).
    assert (Hgo : forall acc' lvl rec,
               check_topics pid text rest acc' (recorded w1 (EvLog lvl rec))
               = (r, w') ->
               get_post_calls (trace w') = get_post_calls (trace w)
               /\ service_of (instance w') = service_of (instance w)
               /\ (forall i, instance w = Some i -> instance w' = Some i)
               /\ exists prompts,
                   http_calls (trace w')
                   = http_calls (trace w)
                     ++ List.map (tagger_request (service_of (instance w)))
                                 prompts
                   /\ formats_to text
                        (take (length prompts) ((topic, tmpl) :: rest)) prompts
                   /\ length prompts <= length ((topic, tmpl) :: rest)
                   /\ match r with
                      | Ok _ => length prompts = length ((topic, tmpl) :: rest)
                      | Raise _ => True
                      end).
    { intros acc' lvl rec Hrun.
      apply IH in Hrun as (Hp2 & Hs2 & Hi2 & prompts & Hc2 & Hf2 & Hl2 & Hr2).
      autorewrite with world in Hp2, Hs2, Hi2, Hc2. simpl in Hp2, Hc2.
      rewrite app_nil_r in Hp2, Hc2.
      split; [congruence|]. split; [congruence|]. split.
      - intros i Hw. apply Hi2, Hi1, Hw.
      - exists (prompt :: prompts). simpl. split; [|split; [|split]].
        + rewrite Hc2, Hc1, Hs1, <- app_assoc. reflexivity.
        + constructor; [exact Hf | exact Hf2].
        + lia.
        + destruct r; [lia | exact I]. }
    destruct (is_relevant (strip_thinking raw)); run_step; apply Hgo.
Qed.

(** The special case asks for the quoted post at most once, and sends
    nothing to the LLM. *)
Lemma check_nuance_sharing_views l pid acc w r w' :
  check_nuance_sharing l pid acc w = (r, w') ->
  instance w' = instance w
  /\ http_calls (trace w') = http_calls (trace w)
  /\ get_post_calls (trace w')
     = get_post_calls (trace w)
       ++ (if reaches_lookup (heap w l)
           then [dict_get (extra_data (heap w l)) (lit "quoted_status_id")
                          PyNone]
           else []).
Proof.
  unfold check_nuance_sharing, reaches_lookup. run_step.
  destruct (platform_type (heap w l)); cbn [PlatformType_eqb andb];
    cbv beta iota.
  2: { rewrite ret_run. intros [= <- <-]. rewrite app_nil_r. auto. }
  rewrite try_except_run. run_step.
  destruct (truthy (dict_get _ (lit "is_quote_tweet") _)); cbn [andb].
  2: { run_step. intros [= <- <-]. autorewrite with world. simpl.
       rewrite !app_nil_r. auto. }
  destruct (truthy (dict_get _ (lit "quoted_status_id") _)); cbn [andb].
  2: { run_step. intros [= <- <-]. autorewrite with world. simpl.
       rewrite !app_nil_r. auto. }
  do 2 run_step. autorewrite with world.
  destruct (get_post _ (env w)) as [[quoted_post|ex] e'];
    simpl fst; simpl snd; cbv beta iota.
  - destruct (str_eqb (account_id quoted_post) NUANCE_SOCIAL_ACCOUNT_ID);
      run_step; intros [= <- <-]; autorewrite with world; simpl;
      rewrite ?app_nil_r; auto.
  - run_step. intros [= <- <-]. autorewrite with world. simpl.
    rewrite ?app_nil_r. auto.
Qed.

(** [process], stage by stage, for what it sends and whom it asks. *)
Lemma process_views l w :
  let p := heap w l in
  let w0 := with_env (recorded w EvGetTopicPrompts)
                     (snd (get_topic_prompts (env w))) in
  let w' := snd (process l w) in
  match fst (get_topic_prompts (env w)) with
  | Raise e =>
      instance w' = instance w
      /\ http_calls (trace w') = http_calls (trace w)
      /\ get_post_calls (trace w') = get_post_calls (trace w)
  | Ok items =>
      match check_topics (post_id p) (content p) items [] w0 with
      | (Raise e, w1) =>
          instance w' = instance w1
          /\ http_calls (trace w') = http_calls (trace w1)
          /\ get_post_calls (trace w') = get_post_calls (trace w1)
      | (Ok ts, w1) =>
          instance w' = instance w1
          /\ http_calls (trace w') = http_calls (trace w1)
          /\ get_post_calls (trace w')
             = get_post_calls (trace w1)
               ++ (if reaches_lookup p
                   then [dict_get (extra_data p) (lit "quoted_status_id")
                                  PyNone]
                   else [])
      end
  end.
Proof.
  intros p w0 w'. subst w'. unfold process. rewrite try_except_run.
  do 2 run_step. fold p. fold w0.
  destruct (fst (get_topic_prompts (env w))) as [items|e]; cbv beta iota.
  2: { do 2 run_step. subst w0. simpl. autorewrite with world. simpl.
       rewrite !app_nil_r. auto. }
  run_step.
  destruct (check_topics (post_id p) (content p) items [] w0)
    as [[ts|e] w1] eqn:Hloop; cbv beta iota.
  2: { do 2 run_step. simpl. autorewrite with world. simpl.
       rewrite !app_nil_r. auto. }
  apply check_topics_run in Hloop as [Hh _].
  assert (Hh1 : heap w1 l = p) by (rewrite Hh; reflexivity).
  run_step.
  destruct (check_nuance_sharing_run l (post_id p) ts w1) as (w2 & Hs & _).
  rewrite Hs. cbv beta iota.
  apply check_nuance_sharing_views in Hs as (Hi & Hc & Hp).
  rewrite Hh1 in Hp.
  unfold assign_topics. do 2 run_step. simpl. autorewrite with world.
  simpl. rewrite !app_nil_r. auto.
Qed.

Lemma relevant_topics_sublist items : forall answers,
  relevant_topics items answers `sublist_of` List.map fst items.
Proof.
  induction items as [|[topic tmpl] items IH]; intros [|a answers]; simpl;
    try apply sublist_nil_l.
  destruct (is_relevant (strip_thinking a)).
  - apply sublist_skip, IH.
  - apply sublist_cons, IH.
Qed.

(** X9.  The requests [process] sends are the mapping's templates
    filled in with the post's content, one request each and in the
    mapping's order, with 1024 tokens at most, temperature 0.0 and top_p
    0.5, all naming the model of the one service.  A run that fails stops
    sending: it has sent the requests of the first topics only.  A run
    that is accepted has sent one for every topic, and when the mapping
    cannot be fetched nothing is sent. *)
Theorem requests_follow_the_mapping l w :
  let out := process l w in
  match fst (get_topic_prompts (env w)) with
  | Raise _ => http_calls (trace (snd out)) = http_calls (trace w)
  | Ok items =>
      exists prompts,
        http_calls (trace (snd out))
        = http_calls (trace w)
          ++ List.map (tagger_request (service_of (instance w))) prompts
        /\ formats_to (content (heap w l)) (take (length prompts) items)
                      prompts
        /\ length prompts <= length items
        /\ match fst out with
           | Ok r =>
               match status r with
               | ACCEPTED => length prompts = length items
               | ERROR => True
               end
           | Raise _ => True
           end
  end.
Proof.
  intros out. subst out.
  pose proof (process_views l w) as Hv. cbv zeta in Hv.
  destruct (process_stages l w) as (w' & Hst). cbv zeta in Hst.
  destruct (fst (get_topic_prompts (env w))) as [items|e].
  2: { tauto. }
  destruct (check_topics (post_id (heap w l)) (content (heap w l)) items
              [] _) as [[ts|e] w1] eqn:Hloop;
    apply check_topics_requests in Hloop
      as (_ & _ & _ & prompts & Hc & Hf & Hl & Hr);
    autorewrite with world in Hc; simpl in Hc; rewrite app_nil_r in Hc;
    exists prompts.
  - destruct Hv as (_ & Hv & _). destruct Hst as (Hst & _).
    rewrite Hv, Hc, Hst. simpl. auto.
  - destruct Hv as (_ & Hv & _). destruct Hst as (Hst & _).
    rewrite Hv, Hc, Hst. simpl. auto.
Qed.

(** X10.  [process] keeps the service: one that is published when it
    starts is the published one when it ends, and in any case the
    service the next call of [get_instance()] answers with is the same
    before and after. *)
Theorem process_keeps_the_service l w :
  let w' := snd (process l w) in
  service_of (instance w') = service_of (instance w)
  /\ match instance w with
     | Some self => instance w' = Some self
     | None => True
     end.
Proof.
  intros w'. subst w'.
  pose proof (process_views l w) as Hv. cbv zeta in Hv.
  assert (Hgoal : forall w1 : World Env,
             service_of (instance w1) = service_of (instance w) ->
             (forall i, instance w = Some i -> instance w1 = Some i) ->
             instance (snd (process l w)) = instance w1 ->
             service_of (instance (snd (process l w)))
             = service_of (instance w)
             /\ match instance w with
                | Some self => instance (snd (process l w)) = Some self
                | None => True
                end).
  { intros w1 Hs Hi ->. split; [exact Hs|].
    destruct (instance w) as [self|]; [apply Hi; reflexivity | exact I]. }
  destruct (fst (get_topic_prompts (env w))) as [items|e].
  2: { apply (Hgoal w); tauto. }
  destruct (check_topics (post_id (heap w l)) (content (heap w l)) items
              [] _) as [[ts|e] w1] eqn:Hloop;
    apply check_topics_requests in Hloop as (_ & Hs & Hi & _);
    autorewrite with world in Hs, Hi;
    apply (Hgoal w1); tauto.
Qed.

(** X11.  [process] writes one attribute of one object: every other
    post is as it was, and so are the other fields of the post it was
    given. *)
Theorem process_writes_topics_only l w l' :
  let p := heap w l' in
  let p' := heap (snd (process l w)) l' in
  (l' <> l -> p' = p)
  /\ post_id p' = post_id p
  /\ account_id p' = account_id p
  /\ content p' = content p
  /\ platform_type p' = platform_type p
  /\ extra_data p' = extra_data p.
Proof.
  intros p p'. subst p p'.
  destruct (process_stages l w) as (w' & Hst). cbv zeta in Hst.
  assert (Hcase : heap (snd (process l w)) = heap w
                  \/ exists ts, heap (snd (process l w))
                                = <[l := set_topics (heap w l) ts]> (heap w)).
  { destruct (fst (get_topic_prompts (env w))) as [items|e].
    - destruct (check_topics (post_id (heap w l)) (content (heap w l)) items
                  [] _) as [[ts|e] w1].
      + destruct Hst as (Hst & Hh & _). rewrite Hst. simpl. eauto.
      + destruct Hst as (Hst & Hh). rewrite Hst. simpl. auto.
    - destruct Hst as (Hst & Hh & _). rewrite Hst. simpl. auto. }
  destruct Hcase as [->|[ts ->]]; [repeat split; reflexivity|].
  destruct (decide (l' = l)) as [->|Hne].
  - rewrite fn_lookup_insert. repeat split; try reflexivity.
    intros H. contradiction.
  - rewrite fn_lookup_insert_ne by auto. repeat split; reflexivity.
Qed.

(** X12.  The discovery collaborator is asked for a post at most once,
    and only by a run that ends accepted on a Twitter post marked as a
    quote tweet that names the quoted post; what it is asked for is that
    name.  A run that ends in an error has not asked. *)
Theorem discovery_is_asked_for_quote_tweets_only l w :
  let out := process l w in
  exists r,
    fst out = Ok r
    /\ get_post_calls (trace (snd out))
       = get_post_calls (trace w)
         ++ match status r with
            | ACCEPTED =>
                if reaches_lookup (heap w l)
                then [dict_get (extra_data (heap w l))
                               (lit "quoted_status_id") PyNone]
                else []
            | ERROR => []
            end.
Proof.
  intros out. subst out.
  pose proof (process_views l w) as Hv. cbv zeta in Hv.
  destruct (process_stages l w) as (w' & Hst). cbv zeta in Hst.
  destruct (fst (get_topic_prompts (env w))) as [items|e].
  2: { destruct Hst as (Hst & _). destruct Hv as (_ & _ & Hv).
       eexists. rewrite Hst at 1. split; [reflexivity|].
       rewrite Hv. simpl. rewrite app_nil_r. reflexivity. }
  destruct (check_topics (post_id (heap w l)) (content (heap w l)) items
              [] _) as [[ts|e] w1] eqn:Hloop;
    apply check_topics_requests in Hloop as (Hp & _);
    autorewrite with world in Hp; simpl in Hp; rewrite app_nil_r in Hp;
    destruct Hv as (_ & _ & Hv); destruct Hst as (Hst & _);
    eexists; rewrite Hst at 1; (split; [reflexivity|]);
    rewrite Hv, Hp; simpl; rewrite ?app_nil_r; reflexivity.
Qed.

(** X13.  The topics of an accepted run are taken from the mapping:
    some of its keys, in its order, and after them at most the sentinel;
    the topics the post had before are not among them unless the run
    found them again. *)
Theorem assigned_topics_come_from_the_mapping l w items e1 r :
  get_topic_prompts (env w) = (Ok items, e1) ->
  fst (process l w) = Ok r ->
  status r = ACCEPTED ->
  let assigned := topics (heap (snd (process l w)) l) in
  exists found,
    found `sublist_of` List.map fst items
    /\ (assigned = found \/ assigned = found ++ [nuance_sharing])
    /\ length assigned <= S (length items).
Proof.
  intros Hg Hr Hs assigned. subst assigned.
  destruct (process_stages l w) as (w' & Hst). cbv zeta in Hst.
  rewrite Hg in Hst. simpl fst in Hst; simpl snd in Hst;
    cbv beta iota in Hst.
  destruct (check_topics (post_id (heap w l)) (content (heap w l)) items
              [] _) as [[ts|e] w1] eqn:Hloop.
  2: { destruct Hst as (Hst & _). rewrite Hst in Hr. simpl in Hr.
       injection Hr as <-. discriminate. }
  apply check_topics_run in Hloop as (_ & answers & _ & _ & ->).
  destruct Hst as (Hst & Hh & _). rewrite Hst. simpl. rewrite Hh.
  rewrite fn_lookup_insert. simpl.
  pose proof (relevant_topics_sublist items answers) as Hsub.
  pose proof (sublist_length _ _ Hsub) as Hlen.
  rewrite length_map in Hlen.
  exists (relevant_topics items answers). split; [exact Hsub|].
  destruct (quotes_nuance (heap w l) (env w1)).
  - split; [right; reflexivity|]. rewrite length_app. simpl. lia.
  - rewrite app_nil_r. split; [left; reflexivity | lia].
Qed.

End TaggerMore.

Lemma process_writes_topics_only_witness :
  let C := scripted (Ok abc_prompts) (Ok (a_quoted_post "nuance")) in
  let w := a_world [completion "true"; completion "no"; completion "true"]
                   (a_post TWITTER ∅) in
  let w' := snd (process (C := C) 0 w) in
  1 <> 0
  /\ topics (heap w' 0) = [lit "A"; lit "C"]
  /\ heap w' 1 = heap w 1
  /\ extra_data (heap w' 0) = extra_data (heap w 0).
Proof.
  intros C w w'.
  assert (Hne : 1 <> 0) by discriminate.
  destruct (process_writes_topics_only (C := C) 0 w 1) as (H1 & _).
  destruct (process_writes_topics_only (C := C) 0 w 0)
    as (_ & _ & _ & _ & _ & H0).
  split; [exact Hne|]. split; [vm_compute; reflexivity|].
  split; [exact (H1 Hne) | exact H0].
Defined.

Lemma assigned_topics_come_from_the_mapping_witness :
  let C := scripted (Ok abc_prompts) (Ok (a_quoted_post "nuance")) in
  let w := a_world [completion "no"; completion "true"; completion "no"]
                   (a_post TWITTER (quote_of "42")) in
  let r := accepted_result 0 [lit "B"; nuance_sharing] in
  fst (process (C := C) 0 w) = Ok r
  /\ exists found,
      found `sublist_of` [lit "A"; lit "B"; lit "C"]
      /\ (topics (heap (snd (process (C := C) 0 w)) 0) = found
          \/ topics (heap (snd (process (C := C) 0 w)) 0)
             = found ++ [nuance_sharing])
      /\ length (topics (heap (snd (process (C := C) 0 w)) 0)) <= 4.
Proof.
  intros C w r.
  assert (Hr : fst (process (C := C) 0 w) = Ok r) by (vm_compute; reflexivity).
  split; [exact Hr|].
  exact (assigned_topics_come_from_the_mapping (C := C) 0 w abc_prompts
           (env w) r eq_refl Hr eq_refl).
Defined.

(** ** More on the singleton under concurrent callers *)

Module SingletonMore.
Import Singleton SingletonFacts.

Lemma created_at_most_one s : invariant s -> created s <= 1.
Proof.
  intros (Hall & Hlock & Hfree & Hinst).
  destruct (_instance s) as [[obj self]|] eqn:Hi.
  - destruct (Hinst _ _ eq_refl) as (_ & -> & _). lia.
  - destruct (lock s) as [h|] eqn:Hl.
    + destruct (Hlock _ eq_refl) as (c & Hc & Hholds).
      specialize (Hall _ _ Hc). unfold caller_ok in Hall.
      destruct (at_ c); try discriminate; intuition lia.
    + destruct (Hfree eq_refl eq_refl) as [-> _]. lia.
Qed.

Lemma holder_has_the_lock s n c :
  invariant s -> callers s !! n = Some c -> holds_lock (at_ c) = true ->
  lock s = Some n.
Proof.
  intros (Hall & _) Hc Hh. specialize (Hall _ _ Hc).
  unfold caller_ok in Hall. destruct (at_ c); try discriminate; tauto.
Qed.

(** X14.  The block of [get_instance] is entered by one caller at a
    time: two callers found between taking the lock and releasing it are
    one and the same, and the lock names that caller.  No run constructs
    a second object. *)
Theorem lock_is_exclusive args schedule n m c d :
  let s := run schedule (start args) in
  callers s !! n = Some c -> holds_lock (at_ c) = true ->
  callers s !! m = Some d -> holds_lock (at_ d) = true ->
  n = m /\ lock s = Some n /\ created s <= 1.
Proof.
  intros s Hc Hhc Hd Hhd.
  assert (Hinv : invariant s) by apply run_invariant, start_invariant.
  pose proof (holder_has_the_lock _ _ _ Hinv Hc Hhc) as Hn.
  pose proof (holder_has_the_lock _ _ _ Hinv Hd Hhd) as Hm.
  split; [congruence|]. split; [exact Hn|].
  apply created_at_most_one, Hinv.
Qed.

Lemma lock_is_exclusive_witness :
  let s := run [1; 0; 1; 2] (start [None; Some (lit "m"); None]) in
  callers s !! 1 = Some {| arg := Some (lit "m"); at_ := Constructed 0 |}
  /\ callers s !! 0 = Some {| arg := None; at_ := Arrived |}
  /\ lock s = Some 1
  /\ created s <= 1.
Proof.
  intros s.
  assert (H1 : callers s !! 1
               = Some {| arg := Some (lit "m"); at_ := Constructed 0 |})
    by reflexivity.
  destruct (lock_is_exclusive [None; Some (lit "m"); None] [1; 0; 1; 2]
              1 1 _ _ H1 eq_refl H1 eq_refl) as (_ & Hl & Hc).
  split; [exact H1|]. split; [reflexivity|]. split; [exact Hl | exact Hc].
Defined.

Lemma step_keeps_published n s s' v :
  invariant s -> step n s = Some s' -> _instance s = Some v ->
  _instance s' = Some v /\ inits s' = inits s /\ created s' = created s.
Proof.
  intros Hinv Hstep Hv. unfold step in Hstep.
  destruct (callers s !! n) as [c|] eqn:Hn; [|discriminate].
  pose proof (proj1 Hinv _ _ Hn) as Hc. unfold caller_ok in Hc.
  destruct (at_ c).
  - destruct (lock s); [discriminate|]. injection Hstep as <-. auto.
  - rewrite Hv in Hstep. destruct v as [obj self].
    injection Hstep as <-. auto.
  - destruct Hc as (_ & Hnone & _). congruence.
  - destruct Hc as (_ & Hnone & _). congruence.
  - discriminate.
Qed.

(** X15.  Once the instance is published it stays: whatever the
    callers do afterwards, [cls._instance] is the same object with the
    same model, [_initialize] does not run again and no object is
    constructed. *)
Theorem published_instance_is_stable args schedule more v :
  let s := run schedule (start args) in
  _instance s = Some v ->
  _instance (run more s) = Some v
  /\ inits (run more s) = inits s
  /\ created (run more s) = created s.
Proof.
  intros s Hv.
  assert (Hinv : invariant s) by apply run_invariant, start_invariant.
  clearbody s. revert s Hv Hinv.
  induction more as [|n more IH]; intros s Hv Hinv; simpl; [auto|].
  destruct (step n s) as [s'|] eqn:Hstep; [|apply IH; assumption].
  destruct (step_keeps_published _ _ _ _ Hinv Hstep Hv) as (Hv' & Hi & Hc).
  destruct (IH s' Hv' (step_invariant _ _ _ Hstep Hinv)) as (H1 & H2 & H3).
  split; [exact H1|]. split; congruence.
Qed.

Lemma published_instance_is_stable_witness :
  let args := [Some (lit "m"); None; Some (lit "other")] in
  let s := run [0; 0; 0; 0] (start args) in
  let v := (0, {| model_name := lit "m" |}) in
  _instance s = Some v
  /\ _instance (run [2; 1; 2; 1; 1] s) = Some v
  /\ inits (run [2; 1; 2; 1; 1] s) = 1
  /\ all_returned (run [2; 1; 2; 1; 1] s) = true.
Proof.
  intros args s v.
  assert (Hv : _instance s = Some v) by reflexivity.
  destruct (published_instance_is_stable args [0; 0; 0; 0] [2; 1; 2; 1; 1]
              v Hv) as (H1 & H2 & _).
  split; [exact Hv|]. split; [exact H1|].
  split; [etransitivity; [exact H2 | reflexivity] | reflexivity].
Defined.

End SingletonMore.

(** ** A failed query fails the run *)

Section FailedQuery.

Context {Env Keypair : Type} `{C : Collaborators Env Keypair}.
Local Open Scope run_scope.

Lemma query_llm_result prompt model mt t p w k0 e2 :
  get_wallet_hotkey (env w) = (Ok k0, e2) ->
  let req := chat_request CHUTES_API_KEY prompt
               (or_str model (model_name (service_of (instance w)))) mt t p in
  fst (query_llm prompt model mt t p None w)
  = match fst (async_http_request_with_retry req e2) with
    | Ok data => first_choice_content data
    | Raise e => Raise e
    end.
Proof.
  intros Hw req. unfold query_llm. cbn [keypair_is_true negb].
  do 2 run_step. rewrite Hw.
  simpl fst; simpl snd; cbv beta iota. rewrite bind_run.
  destruct (get_instance_total None
              (with_env (recorded w EvGetWallet) e2)) as (i & w1 & Hg).
  rewrite Hg. cbv beta iota.
  apply get_instance_exact in Hg as (_ & He & _ & _ & _ & Hi).
  autorewrite with world in He, Hi.
  assert (Hself : i = service_of (instance w)).
  { destruct (instance w); simpl; tauto. }
  unfold query.
  destruct (_call_model i prompt (or_str model (model_name i)) mt t p
              (Some k0) w1) as [r w2] eqn:Hc.
  apply call_model_exact in Hc as (Hr & _).
  simpl. rewrite Hr, He, Hself. reflexivity.
Qed.

(** X16.  A query that fails fails the run.  When the first topic's
    request comes back as a failure of the HTTP client, as a body without
    the expected parts, or with a content that is not a string, [process]
    returns the ERROR result with that exception: the topic is not
    counted as not relevant, the later topics are not asked about (one
    request went out), and the post keeps its topics. *)
Theorem failed_query_fails_the_run l w topic tmpl rest e1 prompt k0 e2 e :
  get_topic_prompts (env w) = (Ok ((topic, tmpl) :: rest), e1) ->
  str_format tmpl (content (heap w l)) = Ok prompt ->
  get_wallet_hotkey e1 = (Ok k0, e2) ->
  let req := tagger_request (service_of (instance w)) prompt in
  answer_error (fst (async_http_request_with_retry req e2)) = Some e ->
  fst (process l w) = Ok (error_result l e)
  /\ topics (heap (snd (process l w)) l) = topics (heap w l)
  /\ http_calls (trace (snd (process l w))) = http_calls (trace w) ++ [req].
Proof.
  intros Hg Hf Hw req Herr.
  pose proof (process_views l w) as Hv. cbv zeta in Hv.
  destruct (process_stages l w) as (w' & Hst). cbv zeta in Hst.
  rewrite Hg in Hv, Hst.
  simpl fst in Hv, Hst; simpl snd in Hv, Hst; cbv beta iota in Hv, Hst.
  set (w0 := with_env (recorded w EvGetTopicPrompts) e1) in *.
  assert (Hloop : exists w1,
             check_topics (post_id (heap w l)) (content (heap w l))
               ((topic, tmpl) :: rest) [] w0 = (Raise e, w1)
             /\ http_calls (trace w1) = http_calls (trace w) ++ [req]).
  { cbn [check_topics]. run_step. rewrite Hf. cbv beta iota. run_step.
    pose proof (query_llm_result prompt None 1024 0%float 0.5%float w0
                  k0 e2 Hw) as Hres.
    pose proof (query_llm_exact prompt None 1024 0%float 0.5%float None w0)
      as (_ & _ & Hex).
    cbn [keypair_is_true] in Hex.
    change (env w0) with e1 in Hex. rewrite Hw in Hex. simpl fst in Hex.
    destruct Hex as (Hl & _).
    cbv zeta in Hres. change (instance w0) with (instance w) in Hres, Hl.
    simpl or_str in Hres, Hl.
    fold (tagger_request (service_of (instance w)) prompt) in Hres, Hl.
    fold req in Hres, Hl.
    assert (Hcalls : http_calls
                       (trace (snd (query_llm prompt None 1024 0%float
                                      0.5%float None w0)))
                     = http_calls (trace w) ++ [req]).
    { rewrite <- http_calls_llm_events, Hl, http_calls_app,
        http_calls_llm_events. subst w0. autorewrite with world. simpl.
      rewrite app_nil_r. reflexivity. }
    destruct (query_llm prompt None 1024 0%float 0.5%float None w0)
      as [r w1]. simpl in Hres, Hcalls. subst r.
    unfold answer_error in Herr.
    destruct (fst (async_http_request_with_retry req e2)) as [data|e'].
    - destruct (first_choice_content data) as [v|e'].
      + run_step.
        destruct v; try discriminate; injection Herr as <-;
          cbn [strip_thinking_of type_name]; eauto.
      + injection Herr as <-. eauto.
    - injection Herr as <-. eauto. }
  destruct Hloop as (w1 & Hloop & Hcalls). rewrite Hloop in Hv, Hst.
  destruct Hst as (Hst & Hh). destruct Hv as (_ & Hv & _).
  rewrite Hv, Hcalls, Hst. simpl. rewrite Hh. auto.
Qed.

End FailedQuery.

Lemma failed_query_fails_the_run_witness :
  let C := scripted (Ok abc_prompts) (Ok (a_quoted_post "nuance")) in
  let no_choices := Ok (PyDict [ (lit "error", PyStr (lit "overloaded")) ]) in
  let w := a_world [no_choices; completion "true"; completion "true"]
                   (a_post TWITTER ∅) in
  let e := Exn "KeyError" (lit "'choices'") in
  let req := tagger_request (C := C) (service_of None)
               (lit "Is this about A? hello world") in
  answer_error (fst (async_http_request_with_retry req (env w))) = Some e
  /\ fst (process (C := C) 0 w) = Ok (error_result 0 e)
  /\ topics (heap (snd (process (C := C) 0 w)) 0) = [lit "old"]
  /\ http_calls (trace (snd (process (C := C) 0 w))) = [req].
Proof.
  intros C no_choices w e req.
  assert (Herr : answer_error
                   (fst (async_http_request_with_retry req (env w))) = Some e)
    by reflexivity.
  split; [exact Herr|].
  exact (failed_query_fails_the_run (C := C) 0 w (lit "A")
           (lit "Is this about A? {tweet_text}")
           (List.tl abc_prompts) (env w) (lit "Is this about A? hello world")
           true (env w) e eq_refl ltac:(vm_compute; reflexivity) eq_refl Herr).
Defined.
